(** * The data store of the pipeline: a shallow embedding

    This development embeds [src/libraries/datastore/data-store/data-store.ts]
    (the write-once artifact store, its lazily computed source-map views, the
    data sink, the read-through data source and the single-hop blame lookup)
    and states its specification as theorems.

    Conventions.
    - Line and column numbers of a source map are natural numbers ([N]).
    - A JavaScript string is represented by the bytes of its UTF-8 encoding
      ([string]).
    - A JavaScript object used as a dictionary is a [gmap]; a record that
      several slots of the dictionary may share lives in a heap of records
      and the slots hold its address.
    - A function that may throw returns its error next to the state it leaves
      behind: an exception does not undo the assignments made before it.
    - The asynchronous methods of the store await nothing but each other and
      are computations on the state of the store; [Read] of the read-through
      data source awaits the external accessor and is modelled with its
      suspension points, as a step relation.
    - What the sources import from elsewhere is either a parameter
      ([ResolveUri], [ParentFolderUri], the answers of the file system) or
      modelled from the specification, and marked so. *)

From Stdlib Require Import NArith List Ascii String Lia.
From stdpp Require Import base option list gmap strings pretty.

Local Open Scope string_scope.
Local Open Scope list_scope.

Set Warnings "-register-all".

(** ** Part I. Definitions *)

(** *** Source maps (the [source-map] package, seen through its interface) *)

(** [MappingItem]: what [SourceMapConsumer.eachMapping] hands to its callback. *)
Record MappingItem := mkMappingItem {
  source : string;
  generatedLine : N;
  generatedColumn : N;
  originalLine : N;
  originalColumn : N;
  name : string
}.

(** [Position] and [MappedPosition]. *)
Record Position := mkPosition {
  line : N;
  column : N
}.

Record MappedPosition := mkMappedPosition {
  mp_source : string;
  mp_line : N;
  mp_column : N;
  mp_name : string
}.

(** [RawSourceMap]: the [sources] and [file] members are kept as they are; the
    encoded [mappings] member is kept in decoded form, as the list of items a
    [SourceMapConsumer] built from the map enumerates. *)
Record RawSourceMap := mkRawSourceMap {
  sources : list string;
  file : string;
  mappings : list MappingItem
}.

(** [new SourceMapConsumer(sm).eachMapping(f)] visits the items of [sm]. *)
Definition eachMapping (sm : RawSourceMap) : list MappingItem := mappings sm.

(** [new SourceMapGenerator().toJSON()]: no source, no mapping. *)
Definition empty_source_map : RawSourceMap :=
  {| sources := []; file := EmptyString; mappings := [] |}.

(** *** The per-line index and [DataHandle.Blame] *)

(** The callback of [sourceMapEachMappingByLine]:
    [while (result.length <= mapping.generatedLine) result.push([]);
     result[mapping.generatedLine].push(mapping);] *)
Definition push_mapping (result : list (list MappingItem)) (mapping : MappingItem)
  : list (list MappingItem) :=
  let i := N.to_nat (generatedLine mapping) in
  let padded := result ++ replicate (S i - length result) [] in
  alter (fun bucket => bucket ++ [mapping]) i padded.

Definition eachMappingByLine (items : list MappingItem) : list (list MappingItem) :=
  fold_left push_mapping items [].

(** [DataHandle.Blame], as a function of the value of
    [metadata.sourceMapEachMappingByLine]. *)
Definition Blame (byLine : list (list MappingItem)) (position : Position)
  : list MappedPosition :=
  let sameLineResults :=
    List.filter (fun mapping => generatedColumn mapping <=? column position)%N
      (default [] (byLine !! N.to_nat (line position))) in
  let maxColumn :=
    fold_left (fun c m => N.max c (generatedColumn m)) sameLineResults 0%N in
  let columnDelta := (column position - maxColumn)%N in
  map (fun m => {| mp_column := (originalColumn m + columnDelta)%N;
                   mp_line := originalLine m;
                   mp_name := name m;
                   mp_source := source m |})
    (List.filter (fun m => generatedColumn m =? maxColumn)%N sameLineResults).

(** [resolveAtLine], following the words of the specification: among the
    entries on the requested line whose generated column is at most the
    requested one, those at the maximal generated column, each shifted by the
    distance of the request from that column. *)
Definition qualifies (ln col : N) (e : MappingItem) : bool :=
  (generatedLine e =? ln)%N && (generatedColumn e <=? col)%N.

Definition in_force (table : list MappingItem) (ln col : N) (e : MappingItem) : bool :=
  qualifies ln col e &&
  forallb (fun e' => generatedColumn e' <=? generatedColumn e)%N
    (List.filter (qualifies ln col) table).

Definition resolveAtLine (table : list MappingItem) (ln col : N) : list MappedPosition :=
  map (fun e => {| mp_source := source e;
                   mp_line := originalLine e;
                   mp_column := (originalColumn e + (col - generatedColumn e))%N;
                   mp_name := name e |})
    (List.filter (in_force table ln col) table).

(** *** JavaScript string functions used by the store *)

(** [s.split(c)] for a one-character separator [c]. *)
Fixpoint split (c : ascii) (s : string) : list string :=
  match s with
  | EmptyString => [EmptyString]
  | String a s' =>
      if Ascii.eqb a c then EmptyString :: split c s'
      else match split c s' with
           | seg :: rest => String a seg :: rest
           | [] => [String a EmptyString]
           end
  end.

(** The characters [encodeURIComponent] leaves alone:
    [A-Z a-z 0-9 - _ . ! ~ * ' ( )]. *)
Definition uri_unreserved (a : ascii) : bool :=
  let n := N_of_ascii a in
  ((65 <=? n) && (n <=? 90) || (97 <=? n) && (n <=? 122)
   || (48 <=? n) && (n <=? 57))%N
  || existsb (Ascii.eqb a)
       ["-"; "_"; "."; "!"; "~"; "*"; "'"; "("; ")"]%char.

Definition hex_digit (n : N) : ascii :=
  match n with
  | 0 => "0" | 1 => "1" | 2 => "2" | 3 => "3" | 4 => "4" | 5 => "5"
  | 6 => "6" | 7 => "7" | 8 => "8" | 9 => "9" | 10 => "A" | 11 => "B"
  | 12 => "C" | 13 => "D" | 14 => "E" | _ => "F"
  end%N%char.

Definition hex_value (a : ascii) : option N :=
  let n := N_of_ascii a in
  if ((48 <=? n) && (n <=? 57))%N then Some (n - 48)%N
  else if ((65 <=? n) && (n <=? 70))%N then Some (n - 55)%N
  else if ((97 <=? n) && (n <=? 102))%N then Some (n - 87)%N
  else None.

(** [%XX] for one byte. *)
Definition percent_encode (a : ascii) : string :=
  let n := N_of_ascii a in
  String "%" (String (hex_digit (n / 16)) (String (hex_digit (n mod 16)) EmptyString)).

(** [encodeURIComponent], byte by byte on the UTF-8 form of the text. *)
Fixpoint encodeURIComponent (s : string) : string :=
  match s with
  | EmptyString => EmptyString
  | String a s' =>
      (if uri_unreserved a then String a EmptyString else percent_encode a)
      +:+ encodeURIComponent s'
  end.

(** [decodeURIComponent]: every [%XX] becomes the byte it denotes; [None]
    stands for the [URIError] thrown at a [%] that two hexadecimal digits do
    not follow. (That the decoded bytes form UTF-8 text is not checked: the
    bytes decoded from an encoded text always do.) *)
Fixpoint decodeURIComponent (s : string) : option string :=
  match s with
  | EmptyString => Some EmptyString
  | String a s' =>
      if Ascii.eqb a "%" then
        match s' with
        | String h (String l s'') =>
            match hex_value h, hex_value l with
            | Some x, Some y =>
                String (ascii_of_N (16 * x + y)) <$> decodeURIComponent s''
            | _, _ => None
            end
        | _ => None
        end
      else String a <$> decodeURIComponent s'
  end.

Fixpoint string_drop (n : nat) (s : string) : string :=
  match n, s with
  | S n', String _ s' => string_drop n' s'
  | _, _ => s
  end.

(** [GetSubstitution] of ECMAScript for a pattern without capture groups: in
    the replacement text [$$] stands for a dollar sign, [$&] for the matched
    text, [$`] for the text before the match and [$'] for the text after it;
    any other [$] is kept. *)
Fixpoint GetSubstitution (matched before after replacement : string) : string :=
  match replacement with
  | EmptyString => EmptyString
  | String a rest =>
      if Ascii.eqb a "$" then
        match rest with
        | String b rest' =>
            if Ascii.eqb b "$" then
              String "$" (GetSubstitution matched before after rest')
            else if Ascii.eqb b "&" then
              matched +:+ GetSubstitution matched before after rest'
            else if Ascii.eqb b "`" then
              before +:+ GetSubstitution matched before after rest'
            else if Ascii.eqb b "'" then
              after +:+ GetSubstitution matched before after rest'
            else String "$" (GetSubstitution matched before after rest)
        | EmptyString => String "$" EmptyString
        end
      else String a (GetSubstitution matched before after rest)
  end.

(** [str.replace(/token/g, replacement)] for a literal, non-empty [token]:
    the matches are found from left to right and do not overlap; [before] is
    the text already passed and [skip] counts the characters of a match still
    to be passed. *)
Fixpoint replace_from (token replacement before : string) (skip : nat) (s : string)
  : string :=
  match s with
  | EmptyString => EmptyString
  | String a s' =>
      match skip with
      | S k => replace_from token replacement (before +:+ String a EmptyString) k s'
      | O =>
          if String.prefix token s then
            GetSubstitution token before (string_drop (String.length token) s)
              replacement
            +:+ replace_from token replacement (before +:+ String a EmptyString)
                  (String.length token - 1) s'
          else
            String a (replace_from token replacement
                        (before +:+ String a EmptyString) 0 s')
      end
  end.

Definition this_folder : string := "$(this-folder)".

(** [data.replace(/\$\(this-folder\)/g, parent)]. *)
Definition replace_this_folder (data parent : string) : string :=
  replace_from this_folder parent EmptyString 0 data.

(** Every occurrence of [token] replaced by the text [by_text] itself: the
    substitution the specification describes. *)
Fixpoint substitute_from (token by_text : string) (skip : nat) (s : string) : string :=
  match s with
  | EmptyString => EmptyString
  | String a s' =>
      match skip with
      | S k => substitute_from token by_text k s'
      | O =>
          if String.prefix token s then
            by_text +:+ substitute_from token by_text (String.length token - 1) s'
          else String a (substitute_from token by_text 0 s')
      end
  end.

Definition substitute (token by_text s : string) : string :=
  substitute_from token by_text 0 s.

(** Truthiness of a [string | null]. *)
Definition truthy (data : option string) : bool :=
  match data with
  | Some (String _ _) => true
  | _ => false
  end.

(** Does the character [c] occur in [s]? *)
Fixpoint occurs (c : ascii) (s : string) : bool :=
  match s with
  | EmptyString => false
  | String a s' => Ascii.eqb a c || occurs c s'
  end.

(** *** The URI helpers of [@microsoft.azure/uri]

    [ResolveUri] and [ParentFolderUri] belong to another package of the
    repository; the store is parametric in them. *)
Class UriLibrary := {
  ResolveUri : string -> string -> string;
  ParentFolderUri : string -> option string
}.

(** What the store relies on: resolving against the root of the store leaves
    a resolved reference alone, and puts a fixed root before a relative
    reference made of a counter, a question mark and a query. *)
Record UriLaws `{UriLibrary} (base : string) : Prop := {
  resolve_resolved : forall rel,
    ResolveUri base (ResolveUri base rel) = ResolveUri base rel;
  resolve_relative : exists root, forall (n : N) (q : string),
    ResolveUri base (pretty n +:+ "?" +:+ q) = root +:+ pretty n +:+ "?" +:+ q
}.

(** *** Errors *)

Inductive Error :=
| OperationCanceledException
| WriteConflict (uri : string)      (* can only write '<uri>' once *)
| CouldNotRead (uri : string)       (* Could not read '<uri>'. *)
| DoesNotExist (uri : string)       (* Object '<uri>' does not exist. *)
| DanglingMappingReference (uri inputFile : string)
    (* Source map of '<uri>' references '<inputFile>' which does not exist *)
| URIError                          (* thrown by decodeURIComponent *)
| TypeError                         (* a member of [undefined] was read *)
| OutOfFuel.                        (* not an error of the program: the model
                                       stopped unfolding a recursion *)

Inductive result (A : Type) :=
| Ok (a : A)
| Throw (e : Error).
Arguments Ok {A} a.
Arguments Throw {A} e.

(** *** Data model *)

Definition loc := nat.

(** [DataHandle]: a key and a reference to the record it was read from. *)
Record DataHandle := mkDataHandle {
  key : string;
  read : loc
}.

(** Modelled from the spec: the class [Lazy] ([../lazy]) is not among the
    sources. Each derived view is computed at most once, on first access, and
    the computed value is retained for the lifetime of the record: a slot is
    empty until a first access that succeeds fills it. *)
Definition Lazy (T : Type) : Type := option T.

(** [Metadata]. The three lazy members carry the closures built in
    [WriteData]; what those closures capture ([sourceMapFactory], [uri] and
    [result]) is recorded next to the slots. The members [yamlAst] and
    [lineIndices] depend on the YAML parser alone and are left out. *)
Record Metadata := mkMetadata {
  artifactType : string;
  inputSourceMap : Lazy RawSourceMap;
  sourceMap : Lazy RawSourceMap;
  sourceMapEachMappingByLine : Lazy (list (list MappingItem));
  sourceMapFactory : option (DataHandle -> RawSourceMap);
  captured_uri : string;
  captured_result : DataHandle
}.

(** [Data]. The member [metadata] is [None] while it is still the empty
    object [<any>{}] that [WriteData] hands to [WriteDataInternal]. *)
Record Data := mkData {
  data : string;
  metadata : option Metadata;
  identity : list string
}.

(** [DataStore]: the cancellation flag of its token, the dictionary [store]
    (whose slots hold references to [Data] objects), the counter [uid], and
    the [Data] objects themselves. *)
Record DataStore := mkDataStore {
  isCancellationRequested : bool;
  store : gmap string loc;
  uid : N;
  objects : gmap loc Data
}.

Definition BaseUri : string := "mem://".

Definition empty_DataStore : DataStore :=
  {| isCancellationRequested := false; store := ∅; uid := 0; objects := ∅ |}.

(** *** Computations on the store *)

Definition Comp (A : Type) : Type := DataStore -> result A * DataStore.

Definition ret {A} (a : A) : Comp A := fun s => (Ok a, s).
Definition throw {A} (e : Error) : Comp A := fun s => (Throw e, s).
Definition bind {A B} (c : Comp A) (k : A -> Comp B) : Comp B :=
  fun s => match c s with
           | (Ok a, s') => k a s'
           | (Throw e, s') => (Throw e, s')
           end.
Definition get_state : Comp DataStore := fun s => (Ok s, s).
Definition modify (f : DataStore -> DataStore) : Comp unit := fun s => (Ok tt, f s).
Definition lift {A} (r : result A) : Comp A := fun s => (r, s).

Notation "'do' x <- c ; k" := (bind c (fun x => k))
  (at level 10, x name, c at level 100, k at level 200).
Notation "'exec' c ; k" := (bind c (fun _ => k))
  (at level 10, c at level 100, k at level 200).

Fixpoint mapM {A B} (f : A -> Comp B) (l : list A) : Comp (list B) :=
  match l with
  | [] => ret []
  | x :: l' => do y <- f x ; do ys <- mapM f l' ; ret (y :: ys)
  end.

Definition set_store (f : gmap string loc -> gmap string loc) (s : DataStore) : DataStore :=
  {| isCancellationRequested := isCancellationRequested s; store := f (store s);
     uid := uid s; objects := objects s |}.
Definition set_uid (n : N) (s : DataStore) : DataStore :=
  {| isCancellationRequested := isCancellationRequested s; store := store s;
     uid := n; objects := objects s |}.
Definition set_objects (f : gmap loc Data -> gmap loc Data) (s : DataStore) : DataStore :=
  {| isCancellationRequested := isCancellationRequested s; store := store s;
     uid := uid s; objects := f (objects s) |}.
(** The owner of the token requests cancellation. *)
Definition cancel (s : DataStore) : DataStore :=
  {| isCancellationRequested := true; store := store s;
     uid := uid s; objects := objects s |}.

Definition set_metadata (md : option Metadata) (r : Data) : Data :=
  {| data := data r; metadata := md; identity := identity r |}.
Definition set_inputSourceMap (v : Lazy RawSourceMap) (md : Metadata) : Metadata :=
  {| artifactType := artifactType md; inputSourceMap := v;
     sourceMap := sourceMap md;
     sourceMapEachMappingByLine := sourceMapEachMappingByLine md;
     sourceMapFactory := sourceMapFactory md;
     captured_uri := captured_uri md; captured_result := captured_result md |}.
Definition set_sourceMap (v : Lazy RawSourceMap) (md : Metadata) : Metadata :=
  {| artifactType := artifactType md; inputSourceMap := inputSourceMap md;
     sourceMap := v;
     sourceMapEachMappingByLine := sourceMapEachMappingByLine md;
     sourceMapFactory := sourceMapFactory md;
     captured_uri := captured_uri md; captured_result := captured_result md |}.
Definition set_byLine (v : Lazy (list (list MappingItem))) (md : Metadata) : Metadata :=
  {| artifactType := artifactType md; inputSourceMap := inputSourceMap md;
     sourceMap := sourceMap md;
     sourceMapEachMappingByLine := v;
     sourceMapFactory := sourceMapFactory md;
     captured_uri := captured_uri md; captured_result := captured_result md |}.

Section DataStore.
Context `{UriLibrary}.

(** [ThrowIfCancelled]. *)
Definition ThrowIfCancelled : Comp unit :=
  fun s => if isCancellationRequested s
           then (Throw OperationCanceledException, s)
           else (Ok tt, s).

(** [DataStore.Read]. *)
Definition Read (uri : string) : Comp DataHandle :=
  fun s =>
    let uri := ResolveUri BaseUri uri in
    match store s !! uri with
    | Some d => (Ok {| key := uri; read := d |}, s)
    | None => (Throw (CouldNotRead uri), s)
    end.

(** [DataStore.ReadStrictSync]. *)
Definition ReadStrictSync (absoluteUri : string) : Comp DataHandle :=
  fun s =>
    match store s !! absoluteUri with
    | Some entry => (Ok {| key := absoluteUri; read := entry |}, s)
    | None => (Throw (DoesNotExist absoluteUri), s)
    end.

(** [DataStore.WriteDataInternal]: the object literal [{data, metadata,
    identity}] is a new object of the heap. *)
Definition WriteDataInternal (uri : string) (data : string)
    (metadata : option Metadata) (identity : list string) : Comp DataHandle :=
  exec ThrowIfCancelled ;
  do s <- get_state ;
  match store s !! uri with
  | Some _ => throw (WriteConflict uri)
  | None =>
      let d := fresh (dom (objects s)) in
      exec modify (set_objects <[d := {| data := data; metadata := metadata;
                                         identity := identity |}]>) ;
      exec modify (set_store <[uri := d]>) ;
      Read uri
  end.

(** [DataStore.createUri]: [uid++] and the key of the new artifact. *)
Definition createUri (description : string) : Comp string :=
  fun s =>
    (Ok (ResolveUri BaseUri
           (pretty (uid s) +:+ "?" +:+ encodeURIComponent description)),
     set_uid (uid s + 1) s).

(** [DataStore.WriteData]. The object [metadata] is empty when it is handed
    to [WriteDataInternal], which stores it in the record of [uri]; its
    members are assigned once [WriteDataInternal] has returned. *)
Definition WriteData (description : string) (data : string) (artifact : string)
    (identity : list string) (sourceMapFactory : option (DataHandle -> RawSourceMap))
  : Comp DataHandle :=
  do uri <- createUri description ;
  do result <- WriteDataInternal uri data None identity ;
  let metadata :=
    {| artifactType := artifact;
       inputSourceMap := None;
       sourceMap := None;
       sourceMapEachMappingByLine := None;
       sourceMapFactory := sourceMapFactory;
       captured_uri := uri;
       captured_result := result |} in
  exec modify (fun s =>
                 match store s !! uri with
                 | Some d => set_objects (alter (set_metadata (Some metadata)) d) s
                 | None => s
                 end) ;
  ret result.

(** The [forward] closure of [getDataSink]:
    [this.store[uri] = this.store[input.key]]. A slot assigned [undefined]
    reads like a slot that was never assigned. *)
Definition forward_closure (description : string) (input : DataHandle)
  : Comp DataHandle :=
  do uri <- createUri description ;
  exec modify (set_store (fun st => match st !! key input with
                                    | Some d => <[uri := d]> st
                                    | None => delete uri st
                                    end)) ;
  Read uri.

(** [artifact || defaultArtifact]. *)
Definition or_default (artifact : option string) (defaultArtifact : string) : string :=
  match artifact with
  | Some (String a r) => String a r
  | _ => defaultArtifact
  end.

(** [DataSink] and [DataStore.getDataSink]. *)
Record DataSink := mkDataSink {
  write : string -> string -> option string -> list string ->
          (DataHandle -> RawSourceMap) -> Comp DataHandle;
  forward : string -> DataHandle -> Comp DataHandle
}.

Definition getDataSink (defaultArtifact : string) : DataSink :=
  {| write := fun description data artifact identity sourceMapFactory =>
       WriteData description data (or_default artifact defaultArtifact) identity
         (Some sourceMapFactory);
     forward := forward_closure |}.

Definition FALLBACK_DEFAULT_OUTPUT_ARTIFACT : string := EmptyString.

(** [DataSink.WriteDataWithSourceMap] and [DataSink.Forward]. *)
Definition WriteDataWithSourceMap (sink : DataSink) (description data : string)
    (artifact : option string) (identity : list string)
    (sourceMapFactory : DataHandle -> RawSourceMap) : Comp DataHandle :=
  write sink description data artifact identity sourceMapFactory.

Definition Forward (sink : DataSink) (description : string) (input : DataHandle)
  : Comp DataHandle :=
  forward sink description input.

(** *** Data handles *)

Definition handle_record (h : DataHandle) : Comp Data :=
  fun s => match objects s !! read h with
           | Some r => (Ok r, s)
           | None => (Throw TypeError, s)
           end.

(** [DataHandle.ReadData], [.identity], [.metadata], [.artifactType]. *)
Definition ReadData (h : DataHandle) : Comp string :=
  do r <- handle_record h ; ret (data r).
Definition handle_identity (h : DataHandle) : Comp (list string) :=
  do r <- handle_record h ; ret (identity r).
Definition handle_metadata (h : DataHandle) : Comp Metadata :=
  do r <- handle_record h ;
  match metadata r with
  | Some md => ret md
  | None => throw TypeError
  end.
Definition handle_artifactType (h : DataHandle) : Comp (option string) :=
  do r <- handle_record h ; ret (artifactType <$> metadata r).

(** [DataHandle.Description]:
    [decodeURIComponent(this.key.split('?').reverse()[0])]. *)
Definition Description (h : DataHandle) : result string :=
  match decodeURIComponent (hd EmptyString (rev (split "?" (key h)))) with
  | Some d => Ok d
  | None => Throw URIError
  end.

(** *** The lazy members of [metadata] *)

(** [lazy.Value]: the retained value if there is one, else the value the
    factory computes, which is then retained in the slot of the record. *)
Definition Lazy_Value {T} (slot : Metadata -> Lazy T)
    (fill : Lazy T -> Metadata -> Metadata)
    (factory : Metadata -> Comp T) (h : DataHandle) : Comp T :=
  do md <- handle_metadata h ;
  match slot md with
  | Some v => ret v
  | None =>
      do v <- factory md ;
      exec modify (set_objects
                     (alter (fun r => set_metadata (fill (Some v) <$> metadata r) r)
                        (read h))) ;
      ret v
  end.

(** The factory of [metadata.sourceMap]: the map of [sourceMapFactory], once
    every one of [sourceMap.sources.concat(sourceMap.file)] is a key of the
    store. *)
Definition sourceMap_factory (md : Metadata) : Comp RawSourceMap :=
  match sourceMapFactory md with
  | None => ret empty_source_map
  | Some factory =>
      let sourceMap := factory (captured_result md) in
      do s <- get_state ;
      match List.find (fun inputFile => bool_decide (store s !! inputFile = None))
              (sources sourceMap ++ [file sourceMap]) with
      | Some inputFile =>
          throw (DanglingMappingReference (captured_uri md) inputFile)
      | None => ret sourceMap
      end
  end.

(** [metadata.sourceMap.Value]. *)
Definition sourceMap_Value (h : DataHandle) : Comp RawSourceMap :=
  Lazy_Value sourceMap set_sourceMap sourceMap_factory h.

(** [metadata.sourceMapEachMappingByLine.Value]. *)
Definition sourceMapEachMappingByLine_Value (h : DataHandle)
  : Comp (list (list MappingItem)) :=
  Lazy_Value sourceMapEachMappingByLine set_byLine
    (fun _ => do sm <- sourceMap_Value h ; ret (eachMappingByLine (eachMapping sm))) h.

(** [DataHandle.Blame] on a handle of the store. *)
Definition handle_Blame (h : DataHandle) (position : Position)
  : Comp (list MappedPosition) :=
  do byLine <- sourceMapEachMappingByLine_Value h ;
  ret (Blame byLine position).

End DataStore.

(** *** Blame trees and the input source map *)

(** Modelled from the spec: [BlameTree] ([../source-map/blaming]) is not
    among the sources. A node carries a mapped position and has zero or more
    children, the positions one hop closer to the origin. *)
Inductive BlameTree :=
| mkBlameTree (node : MappedPosition) (blaming : list BlameTree).

Definition node (t : BlameTree) : MappedPosition :=
  match t with mkBlameTree n _ => n end.

(** Modelled from the spec: [BlameTree.BlameLeafs] flattens the tree into
    all its terminal nodes, depth first, children from left to right. *)
Fixpoint BlameLeafs (t : BlameTree) : list MappedPosition :=
  match t with
  | mkBlameTree n [] => [n]
  | mkBlameTree n blaming => concat (map BlameLeafs blaming)
  end.

(** [Mapping] ([../source-map/source-map]): a correspondence between a
    generated and an original position, both already in line and column
    form. *)
Record Mapping := mkMapping {
  m_name : string;
  m_source : string;
  m_generated : Position;
  m_original : Position
}.

(** [SourceMapGenerator]: the [file] it was created for and the mappings
    added so far. *)
Record SourceMapGenerator := mkSourceMapGenerator {
  g_file : string;
  g_mappings : list MappingItem
}.

Fixpoint no_dups (l : list string) : list string :=
  match l with
  | [] => []
  | x :: l' => x :: List.filter (fun y => negb (String.eqb x y)) (no_dups l')
  end.

(** [generator.toJSON()]: the sources are those of the mappings, each once,
    in the order they were first added. *)
Definition toJSON (g : SourceMapGenerator) : RawSourceMap :=
  {| sources := no_dups (map source (g_mappings g));
     file := g_file g;
     mappings := g_mappings g |}.

(** Modelled from the spec: [Compile] ([../source-map/source-map]) is not
    among the sources. It builds the output table from the list of
    correspondences, one entry for each, in order. *)
Definition Compile (mappings : list Mapping) (target : SourceMapGenerator)
  : SourceMapGenerator :=
  {| g_file := g_file target;
     g_mappings :=
       g_mappings target ++
       map (fun m => {| source := m_source m;
                        generatedLine := line (m_generated m);
                        generatedColumn := column (m_generated m);
                        originalLine := line (m_original m);
                        originalColumn := column (m_original m);
                        name := m_name m |}) mappings |}.

Definition position_of (p : MappedPosition) : Position :=
  {| line := mp_line p; column := mp_column p |}.

(** [JSON.stringify] of the literal [{ column: ..., line: ... }]. *)
Definition dquote : string := String (ascii_of_nat 34) EmptyString.
Definition JSON_stringify (position : Position) : string :=
  "{" +:+ dquote +:+ "column" +:+ dquote +:+ ":" +:+ pretty (column position)
  +:+ "," +:+ dquote +:+ "line" +:+ dquote +:+ ":" +:+ pretty (line position) +:+ "}".

Section BlameEngine.
Context `{UriLibrary}.

(** Modelled from the spec: [BlameTree.Create] builds the node of a position
    and, for each result of blaming that position in the record of its
    source, the tree of that result; a position that blames nothing is
    terminal. The recursion is as deep as the chain of mappings is long; the
    model unfolds it [fuel] times. *)
Fixpoint BlameTree_Create (fuel : nat) (position : MappedPosition) : Comp BlameTree :=
  match fuel with
  | O => throw OutOfFuel
  | S fuel' =>
      do data <- ReadStrictSync (mp_source position) ;
      do blames <- handle_Blame data (position_of position) ;
      do blaming <- mapM (BlameTree_Create fuel') blames ;
      ret (mkBlameTree position blaming)
  end.

(** The root that [DataStore.Blame] hands to [BlameTree.Create]. *)
Definition blame_root (absoluteUri : string) (position resolvedPosition : Position)
  : MappedPosition :=
  {| mp_source := absoluteUri;
     mp_column := column resolvedPosition;
     mp_line := line resolvedPosition;
     mp_name := "blameRoot (" +:+ JSON_stringify position +:+ ")" |}.

(** [DataStore.Blame]; a position is given by line and column, which
    [CompilePosition] returns as they are. *)
Definition DataStore_Blame (fuel : nat) (absoluteUri : string) (position : Position)
  : Comp BlameTree :=
  do data <- ReadStrictSync absoluteUri ;
  let resolvedPosition := position in
  BlameTree_Create fuel (blame_root absoluteUri position resolvedPosition).

(** The body of the loop of [CreateInputSourceMapFor] that collects blame:
    the mappings of one target position, one for each leaf of its tree. *)
Definition collect_blame (fuel : nat) (absoluteUri : string) (targetPosition : Position)
  : Comp (list Mapping) :=
  do blameTree <- DataStore_Blame fuel absoluteUri targetPosition ;
  mapM (fun inputPosition =>
          do source_handle <- ReadStrictSync (mp_source inputPosition) ;
          do friendly <- lift (Description source_handle) ;
          ret {| m_name := mp_name inputPosition;
                 m_source := friendly;
                 m_generated := position_of (node blameTree);
                 m_original := position_of inputPosition |})
    (BlameLeafs blameTree).

(** [DataStore.CreateInputSourceMapFor]. *)
Definition CreateInputSourceMapFor (fuel : nat) (absoluteUri : string)
  : Comp RawSourceMap :=
  do data <- ReadStrictSync absoluteUri ;
  do sm <- sourceMap_Value data ;
  let targetPositions :=
    map (fun m => {| column := generatedColumn m; line := generatedLine m |})
      (eachMapping sm) in
  do mappings <- mapM (collect_blame fuel absoluteUri) targetPositions ;
  let sourceMapGenerator := {| g_file := absoluteUri; g_mappings := [] |} in
  ret (toJSON (Compile (concat mappings) sourceMapGenerator)).

(** [metadata.inputSourceMap.Value]:
    [new Lazy(() => this.CreateInputSourceMapFor(uri))]. *)
Definition inputSourceMap_Value (fuel : nat) (h : DataHandle) : Comp RawSourceMap :=
  Lazy_Value inputSourceMap set_inputSourceMap
    (fun md => CreateInputSourceMapFor fuel (captured_uri md)) h.

End BlameEngine.

(** *** The read-through data source

    [ReadThroughDataSource.Read] is asynchronous: its body runs up to an
    [await], is suspended there, and is resumed when the awaited promise
    settles; other code of the single thread may run in between. The promise
    kept in [cache[uri]] is modelled by the point where the body that computes
    it is suspended. *)

Inductive Settlement :=
| Resolved (value : option DataHandle)
| Rejected (e : Error).

Inductive ReadPromise :=
| AwaitStoreRead (probe : result DataHandle)    (* await this.store.Read(uri) *)
| AwaitReadFile                                 (* await this.fs.ReadFile(uri) *)
| AwaitReadUri                                  (* await ReadUri(uri) *)
| AwaitWriteData (written : result DataHandle)  (* await this.store.WriteData(...) *)
| Settled (outcome : Settlement).

Record ReadThroughDataSource := mkReadThroughDataSource {
  uris : list string;
  cache : gmap string ReadPromise
}.

(** The store and one read-through view of it. *)
Record World := mkWorld {
  the_store : DataStore;
  view : ReadThroughDataSource
}.

(** What an awaited call of the external accessor delivers: a text or
    [null], or a rejection. *)
Inductive Fetched :=
| Content (data : option string)
| Failed.

(** The calls a step makes to its collaborators. *)
Inductive Effect :=
| CallReadFile (uri : string)     (* this.fs.ReadFile(uri) *)
| CallReadUri (uri : string)      (* ReadUri(uri) *)
| CallWriteData (uri : string).   (* this.store.WriteData(uri, ...) *)

Definition set_promise (uri : string) (p : ReadPromise) (w : World) : World :=
  {| the_store := the_store w;
     view := {| uris := uris (view w); cache := <[uri := p]> (cache (view w)) |} |}.

Definition push_uri (uri : string) (w : World) : World :=
  {| the_store := the_store w;
     view := {| uris := uris (view w) ++ [uri]; cache := cache (view w) |} |}.

Section ReadThrough.
Context `{UriLibrary}.

(** From [if (data) { ... }] to the [await] of [WriteData]. *)
Definition after_fetch (uri : string) (fetched : option string) (w : World)
  : World * list Effect :=
  let data :=
    if truthy fetched then
      let parent := default EmptyString (ParentFolderUri uri) in
      Some (replace_this_folder (default EmptyString fetched) parent)
    else fetched in
  if negb (truthy data) then (set_promise uri (Settled (Resolved None)) w, [])
  else
    let '(readHandle, s') :=
      WriteData uri (default EmptyString data) "input-file" [uri] None (the_store w) in
    (set_promise uri (AwaitWriteData readHandle)
       {| the_store := s'; view := view w |},
     [CallWriteData uri]).

(** [ReadThroughDataSource.Read], up to its [return]: when the slot of [uri]
    is empty the body of the new promise runs up to its first [await] and the
    promise is stored; the caller gets the promise of the slot. *)
Definition ReadThrough_Read (uri : string) (w : World) : World :=
  match cache (view w) !! uri with
  | Some _ => w
  | None =>
      let '(probe, s') := Read uri (the_store w) in
      set_promise uri (AwaitStoreRead probe) {| the_store := s'; view := view w |}
  end.

(** The body of the promise of [uri] is resumed; [io] is what the external
    accessor delivers if it is the accessor that was awaited. *)
Definition resume (uri : string) (io : Fetched) (w : World)
  : option (World * list Effect) :=
  match cache (view w) !! uri with
  | Some (AwaitStoreRead (Ok existingData)) =>
      Some (set_promise uri (Settled (Resolved (Some existingData))) (push_uri uri w), [])
  | Some (AwaitStoreRead (Throw _)) =>
      Some (set_promise uri AwaitReadFile w, [CallReadFile uri])
  | Some AwaitReadFile =>
      match io with
      | Failed => Some (set_promise uri (Settled (Resolved None)) w, [])
      | Content data =>
          if truthy data then Some (after_fetch uri data w)
          else Some (set_promise uri AwaitReadUri w, [CallReadUri uri])
      end
  | Some AwaitReadUri =>
      match io with
      | Failed => Some (set_promise uri (Settled (Resolved None)) w, [])
      | Content data => Some (after_fetch uri data w)
      end
  | Some (AwaitWriteData (Ok readHandle)) =>
      Some (set_promise uri (Settled (Resolved (Some readHandle))) (push_uri uri w), [])
  | Some (AwaitWriteData (Throw e)) =>
      Some (set_promise uri (Settled (Rejected e)) w, [])
  | Some (Settled _) | None => None
  end.

(** [ReadThroughDataSource.Enum]. *)
Definition Enum (w : World) : list string := uris (view w).

(** One step of the single thread: a call of [Read], the resumption of a
    suspended body, or any other code acting on the store. *)
Inductive step : World -> list Effect -> World -> Prop :=
| step_Read uri w :
    step w [] (ReadThrough_Read uri w)
| step_resume uri io w w' effects :
    resume uri io w = Some (w', effects) ->
    step w effects w'
| step_store (f : DataStore -> DataStore) w :
    step w [] {| the_store := f (the_store w); view := view w |}.

(** A run and the calls made along it, in order. *)
Inductive run : World -> list Effect -> World -> Prop :=
| run_done w : run w [] w
| run_step w1 w2 w3 e1 e2 :
    run w1 e1 w2 -> step w2 e2 w3 -> run w1 (e1 ++ e2) w3.

End ReadThrough.

(** A new view of a store: [uris = []], [cache = {}]. *)
Definition GetReadThroughScope (s : DataStore) : World :=
  {| the_store := s; view := {| uris := []; cache := ∅ |} |}.

(** *** An instance of the URI helpers, for examples *)

Fixpoint last_slash (s : string) : option nat :=
  match s with
  | EmptyString => None
  | String a s' =>
      match last_slash s' with
      | Some i => Some (S i)
      | None => if Ascii.eqb a "/" then Some 0%nat else None
      end
  end.

Definition example_uris : UriLibrary := {|
  ResolveUri base rel :=
    if String.prefix "mem:///" rel then rel else "mem:///" +:+ rel;
  ParentFolderUri uri :=
    match last_slash uri with
    | Some i => Some (String.substring 0 i uri)
    | None => None
    end
|}.

(** *** Views, invariants and histories of the store *)

Definition result_map {A B} (f : A -> B) (r : result A) : result B :=
  match r with
  | Ok a => Ok (f a)
  | Throw e => Throw e
  end.

(** The outcome of the validation in the factory of [metadata.sourceMap], as
    a function of the dictionary it consults. *)
Definition sourceMap_of (st : gmap string loc) (md : Metadata) : result RawSourceMap :=
  match sourceMapFactory md with
  | None => Ok empty_source_map
  | Some factory =>
      let sourceMap := factory (captured_result md) in
      match List.find (fun inputFile => bool_decide (st !! inputFile = None))
              (sources sourceMap ++ [file sourceMap]) with
      | Some inputFile =>
          Throw (DanglingMappingReference (captured_uri md) inputFile)
      | None => Ok sourceMap
      end
  end.

(** What an access to [metadata.sourceMap.Value] of the record at [d]
    yields in the state [s]. *)
Definition view_sourceMap (s : DataStore) (d : loc) : result RawSourceMap :=
  match objects s !! d with
  | Some r =>
      match metadata r with
      | Some md =>
          match sourceMap md with
          | Some v => Ok v
          | None => sourceMap_of (store s) md
          end
      | None => Throw TypeError
      end
  | None => Throw TypeError
  end.

(** What an access to [metadata.sourceMapEachMappingByLine.Value] yields. *)
Definition view_byLine (s : DataStore) (d : loc) : result (list (list MappingItem)) :=
  match objects s !! d with
  | Some r =>
      match metadata r with
      | Some md =>
          match sourceMapEachMappingByLine md with
          | Some v => Ok v
          | None =>
              result_map (fun sm => eachMappingByLine (eachMapping sm))
                (view_sourceMap s d)
          end
      | None => Throw TypeError
      end
  | None => Throw TypeError
  end.

(** Two records with the same content, identity and artifact type, built by
    the same write. *)
Definition same_payload (r r' : Data) : Prop :=
  data r = data r' /\ identity r = identity r' /\
  match metadata r, metadata r' with
  | Some md, Some md' =>
      artifactType md = artifactType md' /\
      sourceMapFactory md = sourceMapFactory md' /\
      captured_uri md = captured_uri md' /\
      captured_result md = captured_result md'
  | None, None => True
  | _, _ => False
  end.

Definition same_payload_at (o o' : option Data) : Prop :=
  match o, o' with
  | Some r, Some r' => same_payload r r'
  | None, None => True
  | _, _ => False
  end.

(** Two states that differ at most in lazy slots that were filled, with the
    value an access would have computed anyway. *)
Definition same_views (s s' : DataStore) : Prop :=
  isCancellationRequested s' = isCancellationRequested s /\
  store s' = store s /\
  uid s' = uid s /\
  (forall d, view_sourceMap s' d = view_sourceMap s d) /\
  (forall d, view_byLine s' d = view_byLine s d) /\
  (forall d, same_payload_at (objects s !! d) (objects s' !! d)).

(** Every record reachable through a key of [s] is reachable through the
    same key of [s'], with the same payload. *)
Definition records_kept (s s' : DataStore) : Prop :=
  forall k d r, store s !! k = Some d -> objects s !! d = Some r ->
    store s' !! k = Some d /\
    exists r', objects s' !! d = Some r' /\ same_payload r r'.

(** A computation that leaves the views as they are, and one whose result
    depends on the views alone. *)
Definition keeps_views {A} (c : Comp A) : Prop :=
  forall s, same_views s (snd (c s)).

Definition reads_views {A} (c : Comp A) : Prop :=
  forall s1 s2, same_views s1 s2 -> fst (c s1) = fst (c s2).



Section Invariants.
Context `{UriLibrary}.

(** The key [createUri] makes from the counter value [n]. *)
Definition key_of (n : N) (description : string) : string :=
  ResolveUri BaseUri (pretty n +:+ "?" +:+ encodeURIComponent description).

(** The invariant of a store:
    - every key was made by [createUri] from a value the counter has passed;
    - every slot refers to a record;
    - a record that has its metadata is stored under the key its closures
      captured, and the handle they captured is the handle of that key;
    - the per-line index of a record is the index of its source map. *)
Definition store_ok (s : DataStore) : Prop :=
  (forall k d, store s !! k = Some d ->
     exists n description, k = key_of n description /\ (n < uid s)%N) /\
  (forall k d, store s !! k = Some d -> is_Some (objects s !! d)) /\
  (forall d r md, objects s !! d = Some r -> metadata r = Some md ->
     store s !! captured_uri md = Some d /\
     captured_result md = {| key := captured_uri md; read := d |}) /\
  (forall d, view_byLine s d
             = result_map (fun sm => eachMappingByLine (eachMapping sm))
                 (view_sourceMap s d)).

(** The state a successful [WriteData] leaves behind. *)
Definition written (description dat artifact : string) (idn : list string)
    (factory : option (DataHandle -> RawSourceMap)) (s : DataStore) : DataStore :=
  let uri := key_of (uid s) description in
  let d := fresh (dom (objects s)) in
  {| isCancellationRequested := isCancellationRequested s;
     store := <[uri := d]> (store s);
     uid := uid s + 1;
     objects :=
       <[d := {| data := dat;
                 metadata := Some
                   {| artifactType := artifact;
                      inputSourceMap := None;
                      sourceMap := None;
                      sourceMapEachMappingByLine := None;
                      sourceMapFactory := factory;
                      captured_uri := uri;
                      captured_result := {| key := uri; read := d |} |};
                 identity := idn |}]> (objects s) |}.

(** The operations open to the users of a store. *)
Inductive Operation :=
| op_WriteData (description data artifact : string) (identity : list string)
    (sourceMapFactory : option (DataHandle -> RawSourceMap))
| op_sink_write (defaultArtifact description data : string)
    (artifact : option string) (identity : list string)
    (sourceMapFactory : DataHandle -> RawSourceMap)
| op_sink_forward (defaultArtifact description : string) (input : DataHandle)
| op_sourceMap (h : DataHandle)
| op_sourceMapEachMappingByLine (h : DataHandle)
| op_inputSourceMap (fuel : nat) (h : DataHandle)
| op_Blame (fuel : nat) (absoluteUri : string) (position : Position)
| op_cancel.

(** The state an operation leaves behind, whatever it returns or throws. *)
Definition perform (op : Operation) (s : DataStore) : DataStore :=
  match op with
  | op_WriteData description data artifact identity factory =>
      snd (WriteData description data artifact identity factory s)
  | op_sink_write defaultArtifact description data artifact identity factory =>
      snd (WriteDataWithSourceMap (getDataSink defaultArtifact)
             description data artifact identity factory s)
  | op_sink_forward defaultArtifact description input =>
      snd (Forward (getDataSink defaultArtifact) description input s)
  | op_sourceMap h => snd (sourceMap_Value h s)
  | op_sourceMapEachMappingByLine h => snd (sourceMapEachMappingByLine_Value h s)
  | op_inputSourceMap fuel h => snd (inputSourceMap_Value fuel h s)
  | op_Blame fuel absoluteUri position =>
      snd (DataStore_Blame fuel absoluteUri position s)
  | op_cancel => cancel s
  end.

Definition perform_all (ops : list Operation) (s : DataStore) : DataStore :=
  fold_left (fun s op => perform op s) ops s.

(** The states of a store that started empty. *)
Definition reachable (s : DataStore) : Prop :=
  exists ops, s = perform_all ops empty_DataStore.

End Invariants.

(** *** Counting calls, and a read that runs undisturbed *)

Definition Effect_eqb (e1 e2 : Effect) : bool :=
  match e1, e2 with
  | CallReadFile u1, CallReadFile u2
  | CallReadUri u1, CallReadUri u2
  | CallWriteData u1, CallWriteData u2 => String.eqb u1 u2
  | _, _ => false
  end.

(** How often the call [e] was made. *)
Definition calls (e : Effect) (effects : list Effect) : nat :=
  length (List.filter (Effect_eqb e) effects).

(** The outcome a caller of [Read(uri)] observes, once there is one. *)
Definition outcome (uri : string) (w : World) : option Settlement :=
  match cache (view w) !! uri with
  | Some (Settled o) => Some o
  | _ => None
  end.




Section ReadUndisturbed.
Context `{UriLibrary}.

Definition advance (uri : string) (io : Fetched) (we : World * list Effect)
  : World * list Effect :=
  match resume uri io (fst we) with
  | Some (w', effects) => (w', snd we ++ effects)
  | None => we
  end.

(** [Read(uri)] and the resumptions of its body, with nothing in between;
    [file] is what [fs.ReadFile] delivers and [net] what [ReadUri] does, if
    they are asked. *)
Definition Read_to_completion (uri : string) (file net : Fetched) (w : World)
  : World * list Effect :=
  advance uri net (advance uri net (advance uri file (advance uri file
    (ReadThrough_Read uri w, [])))).

End ReadUndisturbed.

(** The calls made for [uri] so far, against the point its promise has
    reached. *)
Definition calls_bounded (uri : string) (w : World) (effects : list Effect) : Prop :=
  let file := calls (CallReadFile uri) effects in
  let net := calls (CallReadUri uri) effects in
  let writes := calls (CallWriteData uri) effects in
  match cache (view w) !! uri with
  | None | Some (AwaitStoreRead _) => file = 0 /\ net = 0 /\ writes = 0
  | Some AwaitReadFile => file = 1 /\ net = 0 /\ writes = 0
  | Some AwaitReadUri => file = 1 /\ net = 1 /\ writes = 0
  | Some (AwaitWriteData _) => file = 1 /\ net <= 1 /\ writes = 1
  | Some (Settled _) => file <= 1 /\ net <= 1 /\ writes <= 1
  end%nat.


(** *** Data sources: [ReadStrict], [QuickDataSource] and [Dump] *)

(** [DataSource.ReadStrict], applied to what the awaited [Read] settled
    to: [null] becomes the error "Could not read '<uri>'.", a rejection is
    passed on. *)
Definition ReadStrict (uri : string) (awaited : result (option DataHandle))
  : result DataHandle :=
  match awaited with
  | Ok (Some found) => Ok found
  | Ok None => Throw (CouldNotRead uri)
  | Throw e => Throw e
  end.

(** [QuickDataSource]: a list of handles and the flag [skip], which is a
    [boolean | undefined]. *)
Record QuickDataSource := mkQuickDataSource {
  handles : list DataHandle;
  skip : option bool
}.

(** [QuickDataSource.Enum]:
    [this.skip ? new Array<string>() : this.handles.map(x => x.key)]. *)
Definition QuickDataSource_Enum (q : QuickDataSource) : list string :=
  if default false (skip q) then [] else map key (handles q).

(** [QuickDataSource.Read]:
    [this.handles.filter(x => x.key === key)[0] || null], and [null] at once
    when [skip] is set. *)
Definition QuickDataSource_Read (q : QuickDataSource) (k : string)
  : option DataHandle :=
  if default false (skip q) then None
  else head (List.filter (fun x => String.eqb (key x) k) (handles q)).

(** [this.ReadStrict(key)] of a [QuickDataSource]. *)
Definition QuickDataSource_ReadStrict (q : QuickDataSource) (k : string)
  : result DataHandle :=
  ReadStrict k (Ok (QuickDataSource_Read q k)).

(** *** [originalFullPath] and [originalDirectory] *)

(** [s.lastIndexOf(c)] for a one-character [c]: [-1] when [c] does not
    occur. *)
Fixpoint lastIndexOf (c : ascii) (s : string) : Z :=
  match s with
  | EmptyString => (-1)%Z
  | String a s' =>
      let i := lastIndexOf c s' in
      if (0 <=? i)%Z then (i + 1)%Z
      else if Ascii.eqb a c then 0%Z else (-1)%Z
  end.

(** [s.substring(start, stop)]: both ends are clamped to [0 .. s.length] and
    swapped when they come in the wrong order. *)
Definition js_substring (s : string) (start stop : Z) : string :=
  let len := Z.of_nat (String.length s) in
  let finalStart := Z.min (Z.max start 0) len in
  let finalEnd := Z.min (Z.max stop 0) len in
  let lo := Z.min finalStart finalEnd in
  let hi := Z.max finalStart finalEnd in
  String.substring (Z.to_nat lo) (Z.to_nat (hi - lo)) s.

(** [DataHandle.originalFullPath]: [this.identity[0]], which is [undefined]
    for an empty identity. *)
Definition originalFullPath (h : DataHandle) : Comp (option string) :=
  do idn <- handle_identity h ; ret (head idn).

(** [DataHandle.originalDirectory]:
    [id.substring(0, id.lastIndexOf('/'))] for [id = this.identity[0]]; a
    member of [undefined] is read when the identity is empty. *)
Definition originalDirectory (h : DataHandle) : Comp string :=
  do idn <- handle_identity h ;
  match idn with
  | id :: _ => ret (js_substring id 0 (lastIndexOf "/" id))
  | [] => throw TypeError
  end.

(** *** [Dump] *)

(** [key.replace(':', '')]: a pattern that is a string is replaced once, at
    its first occurrence. *)
Fixpoint remove_first (c : ascii) (s : string) : string :=
  match s with
  | EmptyString => EmptyString
  | String a s' => if Ascii.eqb a c then s' else String a (remove_first c s')
  end.

(** The files written so far, oldest first: the target of each
    [WriteString] and the text written. *)
Definition Files : Type := list (string * string).

(** A computation of [Dump]: it acts on the store (an access to a lazy view
    may fill its slot) and on the files; what was written before an error
    stays written. *)
Definition Dumping (A : Type) : Type :=
  Files -> DataStore -> result A * Files * DataStore.

Definition dump_bind {A B} (c : Dumping A) (k : A -> Dumping B) : Dumping B :=
  fun out s => match c out s with
               | (Ok a, out', s') => k a out' s'
               | (Throw e, out', s') => (Throw e, out', s')
               end.

Definition on_store {A} (c : Comp A) : Dumping A :=
  fun out s => let '(r, s') := c s in (r, out, s').

Notation "'await' x <- c ; k" := (dump_bind c (fun x => k))
  (at level 10, x name, c at level 100, k at level 200).

(** The names of the three files written for a key. *)
Definition dumped_names (targetFileUri : string) : list string :=
  [targetFileUri; targetFileUri +:+ ".map"; targetFileUri +:+ ".input.map"].

Section Dump.
Context `{UriLibrary}.

(** [EnsureIsFolderUri] and [WriteString] belong to the package of the URI
    helpers, and [JSON.stringify(_, null, 2)] to the language: the first and
    the last are parameters, and [WriteString] appends to the files. The
    recursion of the blame engine, which [inputSourceMap] runs, is unfolded
    [fuel] times. *)
Variable EnsureIsFolderUri : string -> string.
Variable stringify : RawSourceMap -> string.
Variable fuel : nat.

Definition WriteString (fileUri text : string) : Dumping unit :=
  fun out s => (Ok tt, out ++ [(fileUri, text)], s).

(** [ResolveUri(targetDirUri, key.replace(':', ''))]. *)
Definition targetFileUri_of (targetDirUri k : string) : string :=
  ResolveUri targetDirUri (remove_first ":" k).

(** The body of the loop of [Dump]. *)
Definition Dump_key (q : QuickDataSource) (targetDirUri k : string) : Dumping unit :=
  await dataHandle <- on_store (lift (QuickDataSource_ReadStrict q k)) ;
  await data <- on_store (ReadData dataHandle) ;
  let targetFileUri := targetFileUri_of targetDirUri k in
  await _ <- WriteString targetFileUri data ;
  await sm <- on_store (sourceMap_Value dataHandle) ;
  await _ <- WriteString (targetFileUri +:+ ".map") (stringify sm) ;
  await ism <- on_store (inputSourceMap_Value fuel dataHandle) ;
  WriteString (targetFileUri +:+ ".input.map") (stringify ism).

Fixpoint Dump_keys (q : QuickDataSource) (targetDirUri : string) (keys : list string)
  : Dumping unit :=
  match keys with
  | [] => fun out s => (Ok tt, out, s)
  | k :: keys' =>
      await _ <- Dump_key q targetDirUri k ; Dump_keys q targetDirUri keys'
  end.

(** [DataSource.Dump], inherited by a [QuickDataSource], run with no other
    code in between. *)
Definition Dump (q : QuickDataSource) (targetDirUri : string) : Dumping unit :=
  let targetDirUri := EnsureIsFolderUri targetDirUri in
  let keys := QuickDataSource_Enum q in
  Dump_keys q targetDirUri keys.

End Dump.

(** *** Predicates used in the statements about the code above *)

(** A blamed position moved [k] columns to the right. *)
Definition shift_column (k : N) (p : MappedPosition) : MappedPosition :=
  {| mp_source := mp_source p; mp_line := mp_line p;
     mp_column := (mp_column p + k)%N; mp_name := mp_name p |}.


(** The enumeration of a read-through view lists, each once, the uris whose
    read resolved to a handle. *)
Definition enumerates_resolved (w : World) : Prop :=
  NoDup (Enum w)
  /\ forall uri, uri ∈ Enum w
       <-> exists h, cache (view w) !! uri = Some (Settled (Resolved (Some h))).

(** What [ReadStrict(uri)] of a read-through view yields once the promise of
    [uri] has settled. *)
Definition ReadThrough_ReadStrict (uri : string) (w : World)
  : option (result DataHandle) :=
  match outcome uri w with
  | Some (Resolved value) => Some (ReadStrict uri (Ok value))
  | Some (Rejected e) => Some (ReadStrict uri (Throw e))
  | None => None
  end.

(** What [await this.fs.ReadFile(uri) || await ReadUri(uri)] leaves in
    [data]: the text of [fs.ReadFile] when it is not empty, else what
    [ReadUri] delivers; [None] is [null], also when one of them throws and
    [data] stays as it was initialised. *)
Definition fetched_data (file net : Fetched) : option string :=
  match file with
  | Failed => None
  | Content d =>
      if truthy d then d
      else match net with
           | Failed => None
           | Content d' => d'
           end
  end.

(** The calls a read makes to the accessor: [fs.ReadFile] and, when that
    delivers nothing, [ReadUri]. *)
Definition accessor_calls (uri : string) (file : Fetched) : list Effect :=
  CallReadFile uri ::
  match file with
  | Content d => if truthy d then [] else [CallReadUri uri]
  | Failed => []
  end.

Section ReadShape.
Context `{UriLibrary}.

(** The text handed to [WriteData], if any: the fetched text with the
    placeholder replaced, unless nothing was fetched or nothing is left. *)
Definition text_to_store (uri : string) (fetched : option string) : option string :=
  if truthy fetched then
    let replaced :=
      replace_this_folder (default EmptyString fetched)
        (default EmptyString (ParentFolderUri uri)) in
    if truthy (Some replaced) then Some replaced else None
  else None.

(** The world once the promise of [uri] has settled after [WriteData] was
    called with [dat] in the world [w]. *)
Definition settled_write (uri dat : string) (w : World) : World :=
  let '(readHandle, s') := WriteData uri dat "input-file" [uri] None (the_store w) in
  let w' := {| the_store := s'; view := view w |} in
  match readHandle with
  | Ok h => set_promise uri (Settled (Resolved (Some h))) (push_uri uri w')
  | Throw e => set_promise uri (Settled (Rejected e)) w'
  end.

End ReadShape.
(** ** Part II. Theorems *)

(** *** The per-line index *)

Lemma push_mapping_length result m :
  length (push_mapping result m)
  = Nat.max (length result) (S (N.to_nat (generatedLine m))).
Proof.
  unfold push_mapping. rewrite length_alter, length_app, length_replicate. lia.
Qed.

Lemma push_mapping_lookup result m (i : nat) :
  default [] (push_mapping result m !! i)
  = default [] (result !! i)
    ++ (if decide (i = N.to_nat (generatedLine m)) then [m] else []).
Proof.
  unfold push_mapping.
  set (k := N.to_nat (generatedLine m)).
  set (padded := result ++ replicate (S k - length result) []).
  assert (Hpad : forall j, default [] (padded !! j) = default [] (result !! j)).
  { intros j. unfold padded.
    destruct (decide (j < length result)%nat) as [Hj|Hj].
    - by rewrite lookup_app_l.
    - rewrite lookup_app_r by lia.
      rewrite (lookup_ge_None_2 result j) by lia. simpl.
      destruct (replicate _ _ !! _) eqn:E; [|done].
      by apply lookup_replicate in E as [-> _]. }
  destruct (decide (i = k)) as [->|Hne].
  - rewrite list_lookup_alter_eq.
    assert (Hk : is_Some (padded !! k)).
    { apply lookup_lt_is_Some. unfold padded.
      rewrite length_app, length_replicate. lia. }
    destruct Hk as [b Hb]. specialize (Hpad k). rewrite Hb in *.
    simpl in *. by rewrite Hpad.
  - rewrite list_lookup_alter_ne by done. rewrite Hpad. by rewrite app_nil_r.
Qed.

Lemma fold_push_mapping_lookup items acc (i : nat) :
  default [] (fold_left push_mapping items acc !! i)
  = default [] (acc !! i)
    ++ List.filter (fun m => bool_decide (i = N.to_nat (generatedLine m))) items.
Proof.
  revert acc. induction items as [|m items IH]; intros acc; simpl.
  - by rewrite app_nil_r.
  - rewrite IH, push_mapping_lookup, <- app_assoc. f_equal.
    destruct (decide _) as [->|Hne].
    + by rewrite bool_decide_eq_true_2.
    + by rewrite bool_decide_eq_false_2.
Qed.

(** The bucket of a line holds the entries of that line, in table order. *)
Lemma eachMappingByLine_lookup items (ln : N) :
  default [] (eachMappingByLine items !! N.to_nat ln)
  = List.filter (fun m => generatedLine m =? ln)%N items.
Proof.
  unfold eachMappingByLine. rewrite fold_push_mapping_lookup. simpl.
  apply filter_ext. intros m.
  destruct (N.eqb_spec (generatedLine m) ln) as [->|Hne].
  - by rewrite bool_decide_eq_true_2.
  - rewrite bool_decide_eq_false_2; [done|]. intros E. apply Hne.
    by apply N2Nat.inj.
Qed.

(** *** The column in force *)

Lemma fold_max_ge (l : list MappingItem) (a : N) :
  (a <= fold_left (fun c m => N.max c (generatedColumn m)) l a)%N.
Proof.
  revert a. induction l as [|m l IH]; intros a; simpl; [lia|].
  specialize (IH (N.max a (generatedColumn m))). lia.
Qed.

Lemma fold_max_upper (l : list MappingItem) (a : N) (e : MappingItem) :
  In e l ->
  (generatedColumn e <= fold_left (fun c m => N.max c (generatedColumn m)) l a)%N.
Proof.
  revert a. induction l as [|m l IH]; intros a; simpl; [done|].
  intros [->|Hin].
  - pose proof (fold_max_ge l (N.max a (generatedColumn e))). lia.
  - by apply IH.
Qed.

Lemma fold_max_attained (l : list MappingItem) (a : N) :
  fold_left (fun c m => N.max c (generatedColumn m)) l a = a
  \/ exists e, In e l
       /\ fold_left (fun c m => N.max c (generatedColumn m)) l a = generatedColumn e.
Proof.
  revert a. induction l as [|m l IH]; intros a; simpl; [by left|].
  destruct (IH (N.max a (generatedColumn m))) as [E|(e & Hin & E)].
  - rewrite E. destruct (N.max_spec a (generatedColumn m)) as [[_ ->]|[_ ->]].
    + right. exists m. auto.
    + by left.
  - right. exists e. auto.
Qed.

(** The column computed by [reduce] from [0] is the largest generated column
    of a non-empty selection. *)
Lemma fold_max_is_max (l : list MappingItem) (e : MappingItem) :
  In e l ->
  (generatedColumn e =? fold_left (fun c m => N.max c (generatedColumn m)) l 0)%N
  = forallb (fun e' => generatedColumn e' <=? generatedColumn e)%N l.
Proof.
  intros Hin.
  set (mx := fold_left _ l 0%N).
  destruct (forallb _ l) eqn:Hall.
  - apply N.eqb_eq. rewrite forallb_forall in Hall.
    pose proof (fold_max_upper l 0%N e Hin) as Hle. fold mx in Hle.
    destruct (fold_max_attained l 0%N) as [E|(e' & Hin' & E)]; fold mx in E.
    + lia.
    + apply Hall in Hin'. apply N.leb_le in Hin'. lia.
  - apply N.eqb_neq. intros E.
    assert (forallb (fun e' => generatedColumn e' <=? generatedColumn e)%N l = true);
      [|congruence].
    apply forallb_forall. intros e' Hin'. apply N.leb_le. rewrite E.
    apply fold_max_upper, Hin'.
Qed.

Lemma filter_qualifies table ln col :
  List.filter (fun m => generatedColumn m <=? col)%N
    (List.filter (fun m => generatedLine m =? ln)%N table)
  = List.filter (qualifies ln col) table.
Proof.
  induction table as [|m table IH]; simpl; [done|].
  rewrite <- IH. unfold qualifies.
  destruct (generatedLine m =? ln)%N; simpl; [|done].
  by destruct (generatedColumn m <=? col)%N.
Qed.

Lemma filter_andb {A} (p q : A -> bool) (l : list A) :
  List.filter (fun x => p x && q x) l = List.filter q (List.filter p l).
Proof.
  induction l as [|x l IH]; simpl; [done|].
  destruct (p x); simpl; [|done]. destruct (q x); by rewrite IH.
Qed.

Lemma filter_in_force table ln col :
  List.filter (in_force table ln col) table
  = List.filter
      (fun e => forallb (fun e' => generatedColumn e' <=? generatedColumn e)%N
                  (List.filter (qualifies ln col) table))
      (List.filter (qualifies ln col) table).
Proof. rewrite <- filter_andb. reflexivity. Qed.

(** C2. Single-hop blame resolution: on the per-line index built from a
    mapping table, [Blame] at (line, column) returns, in table order, exactly
    one result per entry of that line whose generated column is at most
    [column] and maximal among those, namely (originalLine, originalColumn +
    (column - that column), name, source); entries that tie at the maximal
    column each give a result, and nothing is returned when no entry of the
    line starts at or before [column]. *)
Theorem Blame_resolves_in_force_entries (table : list MappingItem) (position : Position) :
  Blame (eachMappingByLine table) position
  = resolveAtLine table (line position) (column position).
Proof.
  unfold Blame, resolveAtLine.
  rewrite eachMappingByLine_lookup, filter_qualifies, filter_in_force.
  set (sel := List.filter (qualifies (line position) (column position)) table).
  set (mx := fold_left _ sel 0%N).
  rewrite (filter_ext_in
             (fun e => forallb (fun e' => generatedColumn e' <=? generatedColumn e)%N sel)
             (fun m => generatedColumn m =? mx)%N sel).
  2:{ intros e Hin. symmetry. by apply fold_max_is_max. }
  apply map_ext_in. intros e Hin. apply filter_In in Hin as [_ Hmx].
  apply N.eqb_eq in Hmx. by rewrite Hmx.
Qed.

(** Nothing qualifies: the position is unmapped. *)
Lemma resolveAtLine_unmapped table ln col :
  List.filter (qualifies ln col) table = [] -> resolveAtLine table ln col = [].
Proof.
  intros Hnone. unfold resolveAtLine. by rewrite filter_in_force, Hnone.
Qed.

(** A table of one qualifying entry blames that entry, shifted. *)
Lemma resolveAtLine_single e ln col :
  qualifies ln col e = true ->
  resolveAtLine [e] ln col
  = [ {| mp_source := source e; mp_line := originalLine e;
         mp_column := (originalColumn e + (col - generatedColumn e))%N;
         mp_name := name e |} ].
Proof.
  intros Hq. unfold resolveAtLine, in_force. simpl. rewrite Hq. simpl.
  by rewrite N.leb_refl.
Qed.

(** Every entry of the own table is in force at its own generated position,
    so blaming an entry's generated position never comes back empty. *)
Lemma in_force_self table e :
  In e table -> in_force table (generatedLine e) (generatedColumn e) e = true.
Proof.
  intros _. unfold in_force, qualifies. rewrite N.eqb_refl, N.leb_refl. simpl.
  apply forallb_forall. intros e' Hin. apply filter_In in Hin as [_ Hq].
  by apply andb_prop in Hq as [_ Hq].
Qed.


(** The example of the specification: one entry generated (0,5) -> original
    (0,0) in source A, queried at (0,7), blames (A, 0, 2). *)
Example Blame_single_hop :
  Blame (eachMappingByLine [mkMappingItem "A" 0 5 0 0 "n"]) (mkPosition 0 7)
  = [mkMappedPosition "A" 0 2 "n"].
Proof. reflexivity. Qed.

(** Two entries at the same generated column fan out, both with delta 0. *)
Example Blame_fan_out :
  Blame (eachMappingByLine [mkMappingItem "A" 0 5 3 1 "a"; mkMappingItem "C" 0 2 9 9 "c";
                            mkMappingItem "B" 0 5 4 2 "b"]) (mkPosition 0 5)
  = [mkMappedPosition "A" 3 1 "a"; mkMappedPosition "B" 4 2 "b"].
Proof. reflexivity. Qed.

(** *** Strings: splitting, and the percent encoding *)

Lemma app_nil_s (s : string) : EmptyString +:+ s = s.
Proof. reflexivity. Qed.

Lemma app_cons_s (a : ascii) (s t : string) : String a s +:+ t = String a (s +:+ t).
Proof. reflexivity. Qed.

Lemma app_s_nil (s : string) : s +:+ EmptyString = s.
Proof. induction s as [|a s IH]; [done|]. by rewrite app_cons_s, IH. Qed.

Lemma app_s_assoc (s t u : string) : (s +:+ t) +:+ u = s +:+ (t +:+ u).
Proof. induction s as [|a s IH]; [done|]. by rewrite !app_cons_s, IH. Qed.

Lemma occurs_app c (s t : string) : occurs c (s +:+ t) = occurs c s || occurs c t.
Proof.
  induction s as [|a s IH]; [done|]. rewrite app_cons_s. simpl.
  by rewrite IH, orb_assoc.
Qed.

Lemma split_nonempty c s : split c s <> [].
Proof.
  destruct s as [|a s]; simpl; [done|].
  destruct (Ascii.eqb a c); [done|]. by destruct (split c s).
Qed.

(** A text without the separator is its own single segment. *)
Lemma split_absent c s : occurs c s = false -> split c s = [s].
Proof.
  induction s as [|a s IH]; simpl; [done|].
  intros [Ha Hs]%orb_false_elim. rewrite Ha, (IH Hs). done.
Qed.

(** Splitting at the first separator. *)
Lemma split_first c p q :
  occurs c p = false -> split c (p +:+ String c q) = p :: split c q.
Proof.
  induction p as [|a p IH]; intros Hp.
  - rewrite app_nil_s. simpl. by rewrite Ascii.eqb_refl.
  - simpl in Hp. apply orb_false_elim in Hp as [Ha Hp].
    rewrite app_cons_s. simpl. by rewrite Ha, (IH Hp).
Qed.

Lemma last_cons_nonempty {A} (d x : A) (l : list A) :
  l <> [] -> hd d (rev (x :: l)) = hd d (rev l).
Proof.
  intros Hl. simpl. destruct (rev l) as [|y r] eqn:E; [|done].
  apply (f_equal (@rev A)) in E. rewrite rev_involutive in E. done.
Qed.

(** The last segment is what follows the last separator. *)
Lemma split_last_segment c p q :
  hd EmptyString (rev (split c (p +:+ String c q)))
  = hd EmptyString (rev (split c q)).
Proof.
  induction p as [|a p IH].
  - rewrite app_nil_s. simpl. rewrite Ascii.eqb_refl.
    apply last_cons_nonempty, split_nonempty.
  - rewrite app_cons_s. simpl. destruct (Ascii.eqb a c).
    + rewrite <- IH. apply last_cons_nonempty, split_nonempty.
    + rewrite <- IH. destruct (split c (p +:+ String c q)) as [|seg rest] eqn:E.
      { by apply split_nonempty in E. }
      destruct rest as [|seg' rest].
      * exfalso. clear IH. revert seg E. induction p as [|b p IHp]; intros seg E.
        -- rewrite app_nil_s in E. simpl in E. rewrite Ascii.eqb_refl in E.
           injection E as _ E. by apply split_nonempty in E.
        -- rewrite app_cons_s in E. simpl in E. destruct (Ascii.eqb b c).
           ++ injection E as _ E. by apply split_nonempty in E.
           ++ destruct (split c (p +:+ String c q)) as [|s1 [|s2 r]] eqn:E'.
              ** by apply split_nonempty in E'.
              ** by eapply IHp.
              ** done.
      * rewrite !(last_cons_nonempty _ _ (seg' :: rest)) by done. done.
Qed.

(** One character, encoded and decoded. *)
Lemma decode_encoded_char (a : ascii) (rest : string) :
  decodeURIComponent
    ((if uri_unreserved a then String a EmptyString else percent_encode a) +:+ rest)
  = String a <$> decodeURIComponent rest.
Proof.
  destruct a as [[] [] [] [] [] [] [] []]; reflexivity.
Qed.

Lemma encoded_char_no_question_mark (a : ascii) :
  occurs "?" (if uri_unreserved a then String a EmptyString else percent_encode a)
  = false.
Proof.
  destruct a as [[] [] [] [] [] [] [] []]; reflexivity.
Qed.

(** Decoding undoes encoding. *)
Lemma decode_encode (s : string) :
  decodeURIComponent (encodeURIComponent s) = Some s.
Proof.
  induction s as [|a s IH]; [done|]. simpl.
  by rewrite decode_encoded_char, IH.
Qed.

(** No question mark survives the encoding. *)
Lemma encode_no_question_mark (s : string) :
  occurs "?" (encodeURIComponent s) = false.
Proof.
  induction s as [|a s IH]; [done|]. simpl.
  by rewrite occurs_app, encoded_char_no_question_mark, IH.
Qed.

Lemma pretty_N_char_no_question_mark (x : N) :
  Ascii.eqb (pretty_N_char x) "?" = false.
Proof. unfold pretty_N_char. by repeat case_match. Qed.

Lemma pretty_N_go_no_question_mark (x : N) (s : string) :
  occurs "?" s = false -> occurs "?" (pretty_N_go x s) = false.
Proof.
  revert s. induction (N.lt_wf_0 x) as [x _ IH]. intros s Hs.
  destruct (decide (x = 0)%N) as [->|Hx].
  - by rewrite pretty_N_go_0.
  - rewrite pretty_N_go_step by lia. apply IH.
    + apply N.div_lt; lia.
    + simpl. by rewrite pretty_N_char_no_question_mark.
Qed.

(** The decimal form of the counter has no question mark. *)
Lemma pretty_no_question_mark (n : N) : occurs "?" (pretty n) = false.
Proof.
  unfold pretty, pretty_N. case_decide; [done|].
  by apply pretty_N_go_no_question_mark.
Qed.


(** *** Replacement patterns *)




(** The pattern [$$] in the replacement text comes out as one dollar sign. *)
Example replace_this_folder_dollars :
  replace_this_folder "$(this-folder)/x" "file:///tmp/a$$b" = "file:///tmp/a$b/x"
  /\ substitute this_folder "file:///tmp/a$$b" "$(this-folder)/x"
     = "file:///tmp/a$$b/x".
Proof. split; reflexivity. Qed.

(** *** The store: keys *)

Section StoreFacts.
Context `{UriLibrary}.

Ltac unfold_comp :=
  unfold bind, ret, throw, get_state, modify, lift in *.

Lemma key_of_inj (n m : N) (d d' : string) :
  UriLaws BaseUri -> key_of n d = key_of m d' -> n = m /\ d = d'.
Proof.
  intros [_ [root Hroot]]. unfold key_of. rewrite !Hroot.
  intros E%(inj (String.app root)).
  assert (Hs : split "?" (pretty n +:+ "?" +:+ encodeURIComponent d)
               = split "?" (pretty m +:+ "?" +:+ encodeURIComponent d'))
    by (by rewrite E).
  change ("?" +:+ ?x) with (String "?" x) in Hs.
  rewrite !split_first in Hs by apply pretty_no_question_mark.
  rewrite !split_absent in Hs by apply encode_no_question_mark.
  injection Hs as Hn He. split.
  - by apply (inj pretty).
  - apply (f_equal decodeURIComponent) in He. rewrite !decode_encode in He.
    congruence.
Qed.

(** The description decoded from a key of [createUri] is the description
    the key was made from. *)
Lemma Description_key_of (n : N) (d : string) (r : loc) :
  UriLaws BaseUri -> Description {| key := key_of n d; read := r |} = Ok d.
Proof.
  intros [_ [root Hroot]]. unfold Description, key_of. simpl. rewrite Hroot.
  change ("?" +:+ ?x) with (String "?" x).
  rewrite <- app_s_assoc, split_last_segment.
  rewrite split_absent by apply encode_no_question_mark. simpl.
  by rewrite decode_encode.
Qed.

(** A key of the store differs from the next key of [createUri]. *)
Lemma next_key_fresh (s : DataStore) (description : string) :
  UriLaws BaseUri -> store_ok s ->
  store s !! key_of (uid s) description = None.
Proof.
  intros Hlaws [Hkeys _].
  destruct (store s !! key_of (uid s) description) as [d|] eqn:E; [|done].
  destruct (Hkeys _ _ E) as (n & d' & Heq & Hlt).
  apply key_of_inj in Heq as [Heq _]; [lia|done].
Qed.

(** *** The store: writing *)

(** A write to an occupied key fails and changes nothing; the cancellation
    check decides first which error it is. *)
Lemma WriteDataInternal_occupied uri dat md idn s d :
  store s !! uri = Some d ->
  WriteDataInternal uri dat md idn s
  = (Throw (if isCancellationRequested s then OperationCanceledException
            else WriteConflict uri), s).
Proof.
  intros Hd. unfold WriteDataInternal, ThrowIfCancelled. unfold_comp.
  destruct (isCancellationRequested s); [done|]. by rewrite Hd.
Qed.

Lemma WriteDataInternal_cancelled uri dat md idn s :
  isCancellationRequested s = true ->
  WriteDataInternal uri dat md idn s = (Throw OperationCanceledException, s).
Proof.
  intros Hc. unfold WriteDataInternal, ThrowIfCancelled. unfold_comp.
  by rewrite Hc.
Qed.

(** [WriteData] after cancellation: only the counter moves. *)
Lemma WriteData_cancelled description dat artifact idn factory s :
  isCancellationRequested s = true ->
  WriteData description dat artifact idn factory s
  = (Throw OperationCanceledException, set_uid (uid s + 1) s).
Proof.
  intros Hc. unfold WriteData, createUri. unfold_comp.
  by rewrite WriteDataInternal_cancelled.
Qed.

Lemma WriteData_fresh description dat artifact idn factory s :
  UriLaws BaseUri ->
  isCancellationRequested s = false ->
  store s !! key_of (uid s) description = None ->
  WriteData description dat artifact idn factory s
  = (Ok {| key := key_of (uid s) description; read := fresh (dom (objects s)) |},
     written description dat artifact idn factory s).
Proof.
  intros [Hres _] Hc Hfresh.
  assert (Hk : ResolveUri BaseUri (key_of (uid s) description)
               = key_of (uid s) description) by apply Hres.
  unfold WriteData, createUri, WriteDataInternal, ThrowIfCancelled, Read.
  unfold_comp. unfold set_uid, set_store, set_objects. simpl.
  fold (key_of (uid s) description).
  rewrite Hc. simpl. rewrite Hfresh. simpl.
  rewrite Hk, lookup_insert_eq. simpl. rewrite lookup_insert_eq.
  unfold written. simpl. by rewrite alter_insert_eq, Hc.
Qed.

End StoreFacts.

(** *** Lazy views: an access fills a slot and changes nothing else *)

Lemma same_payload_refl r : same_payload r r.
Proof. unfold same_payload. by destruct (metadata r). Qed.

Lemma same_payload_trans r1 r2 r3 :
  same_payload r1 r2 -> same_payload r2 r3 -> same_payload r1 r3.
Proof.
  unfold same_payload. intros (-> & -> & H12) (-> & -> & H23).
  split; [done|]. split; [done|].
  destruct (metadata r1), (metadata r2), (metadata r3); try done.
  destruct H12 as (-> & -> & -> & ->). done.
Qed.

Lemma same_payload_at_refl o : same_payload_at o o.
Proof. destruct o; simpl; [apply same_payload_refl|done]. Qed.

Lemma same_payload_at_trans o1 o2 o3 :
  same_payload_at o1 o2 -> same_payload_at o2 o3 -> same_payload_at o1 o3.
Proof.
  destruct o1, o2, o3; simpl; try done. apply same_payload_trans.
Qed.

Lemma same_views_refl s : same_views s s.
Proof. unfold same_views. repeat split; auto using same_payload_at_refl. Qed.

Lemma same_views_trans s1 s2 s3 :
  same_views s1 s2 -> same_views s2 s3 -> same_views s1 s3.
Proof.
  intros (Hc1 & Hs1 & Hu1 & Hm1 & Hb1 & Hp1) (Hc2 & Hs2 & Hu2 & Hm2 & Hb2 & Hp2).
  unfold same_views.
  split; [congruence|]. split; [congruence|]. split; [congruence|].
  split; [|split]; intros d.
  - by rewrite Hm2.
  - by rewrite Hb2.
  - eapply same_payload_at_trans; eauto.
Qed.

Lemma fill_sourceMap_same_views s d v :
  view_sourceMap s d = Ok v ->
  same_views s
    (set_objects
       (alter (fun r => set_metadata (set_sourceMap (Some v) <$> metadata r) r) d) s).
Proof.
  intros Hv. unfold same_views, set_objects. simpl.
  split; [done|]. split; [done|]. split; [done|].
  split; [|split]; intros d'.
  - unfold view_sourceMap in *. simpl. rewrite lookup_alter.
    case_decide as Hd; [subst d'|done].
    destruct (objects s !! d) as [r|]; simpl in *; [|done].
    destruct (metadata r) as [md|]; simpl in *; [|done].
    by destruct (sourceMap md); simplify_eq.
  - unfold view_byLine, view_sourceMap in *. simpl. rewrite lookup_alter.
    case_decide as Hd; [subst d'|done].
    destruct (objects s !! d) as [r|]; simpl in *; [|done].
    destruct (metadata r) as [md|]; simpl in *; [|done].
    destruct (sourceMapEachMappingByLine md); [done|].
    destruct (sourceMap md); [by simplify_eq|by rewrite Hv].
  - rewrite lookup_alter. case_decide as Hd; [subst d'|apply same_payload_at_refl].
    destruct (objects s !! d) as [r|]; simpl; [|done].
    unfold same_payload. simpl. by destruct (metadata r).
Qed.

Lemma fill_byLine_same_views s d v :
  view_byLine s d = Ok v ->
  same_views s
    (set_objects
       (alter (fun r => set_metadata (set_byLine (Some v) <$> metadata r) r) d) s).
Proof.
  intros Hv. unfold same_views, set_objects. simpl.
  split; [done|]. split; [done|]. split; [done|].
  split; [|split]; intros d'.
  - unfold view_sourceMap in *. simpl. rewrite lookup_alter.
    case_decide as Hd; [subst d'|done].
    destruct (objects s !! d) as [r|]; simpl in *; [|done].
    by destruct (metadata r) as [md|].
  - unfold view_byLine, view_sourceMap in *. simpl. rewrite lookup_alter.
    case_decide as Hd; [subst d'|done].
    destruct (objects s !! d) as [r|]; simpl in *; [|done].
    destruct (metadata r) as [md|]; simpl in *; [|done].
    by destruct (sourceMapEachMappingByLine md); simplify_eq.
  - rewrite lookup_alter. case_decide as Hd; [subst d'|apply same_payload_at_refl].
    destruct (objects s !! d) as [r|]; simpl; [|done].
    unfold same_payload. simpl. by destruct (metadata r).
Qed.

Lemma fill_inputSourceMap_same_views s d v :
  same_views s
    (set_objects
       (alter (fun r => set_metadata (set_inputSourceMap (Some v) <$> metadata r) r) d) s).
Proof.
  unfold same_views, set_objects. simpl.
  split; [done|]. split; [done|]. split; [done|].
  split; [|split]; intros d'.
  - unfold view_sourceMap in *. simpl. rewrite lookup_alter.
    case_decide as Hd; [subst d'|done].
    destruct (objects s !! d) as [r|]; simpl in *; [|done].
    by destruct (metadata r) as [md|].
  - unfold view_byLine, view_sourceMap in *. simpl. rewrite lookup_alter.
    case_decide as Hd; [subst d'|done].
    destruct (objects s !! d) as [r|]; simpl in *; [|done].
    by destruct (metadata r) as [md|].
  - rewrite lookup_alter. case_decide as Hd; [subst d'|apply same_payload_at_refl].
    destruct (objects s !! d) as [r|]; simpl; [|done].
    unfold same_payload. simpl. by destruct (metadata r).
Qed.

Section ViewFacts.
Context `{UriLibrary}.

Ltac unfold_comp :=
  unfold bind, ret, throw, get_state, modify, lift in *.

Lemma sourceMap_factory_run md s :
  sourceMap_factory md s = (sourceMap_of (store s) md, s).
Proof.
  unfold sourceMap_factory, sourceMap_of. unfold_comp.
  destruct (sourceMapFactory md); [|done].
  by destruct (List.find _ _).
Qed.

(** An access to [metadata.sourceMap.Value]. *)
Lemma sourceMap_Value_run h s :
  exists s', sourceMap_Value h s = (view_sourceMap s (read h), s')
             /\ same_views s s'.
Proof.
  unfold sourceMap_Value, Lazy_Value, handle_metadata, handle_record.
  unfold_comp. unfold view_sourceMap.
  destruct (objects s !! read h) as [r|] eqn:Hr;
    [|eexists; split; [done|apply same_views_refl]].
  destruct (metadata r) as [md|] eqn:Hmd;
    [|eexists; split; [done|apply same_views_refl]].
  destruct (sourceMap md) as [v|] eqn:Hv;
    [eexists; split; [done|apply same_views_refl]|].
  rewrite sourceMap_factory_run.
  destruct (sourceMap_of (store s) md) as [v|e] eqn:Hf;
    [|eexists; split; [done|apply same_views_refl]].
  eexists. split; [done|]. apply fill_sourceMap_same_views.
  unfold view_sourceMap. by rewrite Hr, Hmd, Hv.
Qed.

(** An access to [metadata.sourceMapEachMappingByLine.Value]. *)
Lemma sourceMapEachMappingByLine_Value_run h s :
  exists s', sourceMapEachMappingByLine_Value h s = (view_byLine s (read h), s')
             /\ same_views s s'.
Proof.
  unfold sourceMapEachMappingByLine_Value, Lazy_Value, handle_metadata, handle_record.
  unfold_comp. unfold view_byLine.
  destruct (objects s !! read h) as [r|] eqn:Hr;
    [|eexists; split; [done|apply same_views_refl]].
  destruct (metadata r) as [md|] eqn:Hmd;
    [|eexists; split; [done|apply same_views_refl]].
  destruct (sourceMapEachMappingByLine md) as [v|] eqn:Hv;
    [eexists; split; [done|apply same_views_refl]|].
  destruct (sourceMap_Value_run h s) as (s1 & -> & Hs1).
  destruct (view_sourceMap s (read h)) as [sm|e] eqn:Hsm; simpl;
    [|eexists; split; [done|exact Hs1]].
  eexists. split; [done|]. eapply same_views_trans; [exact Hs1|].
  apply fill_byLine_same_views.
  destruct Hs1 as (_ & _ & _ & _ & Hb & _). rewrite Hb.
  unfold view_byLine. by rewrite Hr, Hmd, Hv, Hsm.
Qed.

(** [DataHandle.Blame] on a handle of the store. *)
Lemma handle_Blame_run h position s :
  exists s', handle_Blame h position s
             = (result_map (fun byLine => Blame byLine position)
                  (view_byLine s (read h)), s')
             /\ same_views s s'.
Proof.
  unfold handle_Blame. unfold_comp.
  destruct (sourceMapEachMappingByLine_Value_run h s) as (s1 & -> & Hs1).
  exists s1. split; [|done]. by destruct (view_byLine s (read h)).
Qed.

Lemma ReadStrictSync_run absoluteUri s :
  ReadStrictSync absoluteUri s
  = (match store s !! absoluteUri with
     | Some entry => Ok {| key := absoluteUri; read := entry |}
     | None => Throw (DoesNotExist absoluteUri)
     end, s).
Proof. unfold ReadStrictSync. by destruct (store s !! absoluteUri). Qed.

End ViewFacts.

(** *** Computations that only fill lazy slots *)

Lemma same_payload_sym r r' : same_payload r r' -> same_payload r' r.
Proof.
  unfold same_payload. intros (-> & -> & Hm). split; [done|]. split; [done|].
  destruct (metadata r), (metadata r'); try done.
  destruct Hm as (-> & -> & -> & ->). done.
Qed.

Lemma same_views_sym s s' : same_views s s' -> same_views s' s.
Proof.
  intros (Hc & Hs & Hu & Hm & Hb & Hp). unfold same_views.
  split; [done|]. split; [done|]. split; [done|].
  split; [|split]; intros d; [done|done|].
  specialize (Hp d). destruct (objects s !! d), (objects s' !! d); simpl in *; try done.
  by apply same_payload_sym.
Qed.

Lemma keeps_views_ret {A} (a : A) : keeps_views (ret a).
Proof. intros s. apply same_views_refl. Qed.

Lemma keeps_views_throw {A} (e : Error) : keeps_views (@throw A e).
Proof. intros s. apply same_views_refl. Qed.

Lemma keeps_views_lift {A} (r : result A) : keeps_views (lift r).
Proof. intros s. apply same_views_refl. Qed.

Lemma keeps_views_bind {A B} (c : Comp A) (k : A -> Comp B) :
  keeps_views c -> (forall a, keeps_views (k a)) -> keeps_views (bind c k).
Proof.
  intros Hc Hk s. unfold bind. specialize (Hc s).
  destruct (c s) as [[a|e] s1]; simpl in *; [|done].
  eapply same_views_trans; [exact Hc|apply Hk].
Qed.

Lemma reads_views_ret {A} (a : A) : reads_views (ret a).
Proof. by intros s1 s2 _. Qed.

Lemma reads_views_throw {A} (e : Error) : reads_views (@throw A e).
Proof. by intros s1 s2 _. Qed.


Lemma reads_views_bind {A B} (c : Comp A) (k : A -> Comp B) :
  keeps_views c -> reads_views c -> (forall a, reads_views (k a)) ->
  reads_views (bind c k).
Proof.
  intros Hkeep Hc Hk s1 s2 Hs. unfold bind.
  pose proof (Hc s1 s2 Hs) as Hr.
  pose proof (Hkeep s1) as H1. pose proof (Hkeep s2) as H2.
  destruct (c s1) as [r1 s1'], (c s2) as [r2 s2']. simpl in *. subst r2.
  destruct r1 as [a|e]; [|done]. apply Hk.
  eapply same_views_trans; [apply same_views_sym, H1|].
  eapply same_views_trans; [exact Hs|exact H2].
Qed.

Lemma keeps_views_mapM {A B} (f : A -> Comp B) (l : list A) :
  (forall x, keeps_views (f x)) -> keeps_views (mapM f l).
Proof.
  intros Hf. induction l as [|x l IH]; simpl.
  - apply keeps_views_ret.
  - apply keeps_views_bind; [apply Hf|]. intros y.
    apply keeps_views_bind; [apply IH|]. intros ys. apply keeps_views_ret.
Qed.

Lemma reads_views_mapM {A B} (f : A -> Comp B) (l : list A) :
  (forall x, keeps_views (f x)) -> (forall x, reads_views (f x)) ->
  reads_views (mapM f l).
Proof.
  intros Hk Hf. induction l as [|x l IH]; simpl.
  - apply reads_views_ret.
  - apply reads_views_bind; [apply Hk|apply Hf|]. intros y.
    apply reads_views_bind; [by apply keeps_views_mapM|apply IH|].
    intros ys. apply reads_views_ret.
Qed.

Section StableFacts.
Context `{UriLibrary}.

Lemma keeps_views_ReadStrictSync u : keeps_views (ReadStrictSync u).
Proof. intros s. rewrite ReadStrictSync_run. apply same_views_refl. Qed.

Lemma reads_views_ReadStrictSync u : reads_views (ReadStrictSync u).
Proof.
  intros s1 s2 (_ & Hs & _). rewrite !ReadStrictSync_run. simpl. by rewrite Hs.
Qed.

Lemma keeps_views_sourceMap_Value h : keeps_views (sourceMap_Value h).
Proof. intros s. by destruct (sourceMap_Value_run h s) as (s' & -> & Hs). Qed.

Lemma reads_views_sourceMap_Value h : reads_views (sourceMap_Value h).
Proof.
  intros s1 s2 (_ & _ & _ & Hm & _).
  destruct (sourceMap_Value_run h s1) as (s1' & -> & _).
  destruct (sourceMap_Value_run h s2) as (s2' & -> & _). simpl. by rewrite Hm.
Qed.

Lemma keeps_views_byLine_Value h :
  keeps_views (sourceMapEachMappingByLine_Value h).
Proof.
  intros s. by destruct (sourceMapEachMappingByLine_Value_run h s) as (s' & -> & Hs).
Qed.

Lemma keeps_views_handle_Blame h position : keeps_views (handle_Blame h position).
Proof. intros s. by destruct (handle_Blame_run h position s) as (s' & -> & Hs). Qed.

Lemma reads_views_handle_Blame h position : reads_views (handle_Blame h position).
Proof.
  intros s1 s2 (_ & _ & _ & _ & Hb & _).
  destruct (handle_Blame_run h position s1) as (s1' & -> & _).
  destruct (handle_Blame_run h position s2) as (s2' & -> & _). simpl. by rewrite Hb.
Qed.

Lemma keeps_views_BlameTree_Create fuel position :
  keeps_views (BlameTree_Create fuel position).
Proof.
  revert position. induction fuel as [|fuel IH]; intros position; simpl.
  - apply keeps_views_throw.
  - apply keeps_views_bind; [apply keeps_views_ReadStrictSync|]. intros dh.
    apply keeps_views_bind; [apply keeps_views_handle_Blame|]. intros blames.
    apply keeps_views_bind; [by apply keeps_views_mapM|]. intros blaming.
    apply keeps_views_ret.
Qed.

Lemma reads_views_BlameTree_Create fuel position :
  reads_views (BlameTree_Create fuel position).
Proof.
  revert position. induction fuel as [|fuel IH]; intros position; simpl.
  - apply reads_views_throw.
  - apply reads_views_bind;
      [apply keeps_views_ReadStrictSync|apply reads_views_ReadStrictSync|].
    intros dh.
    apply reads_views_bind;
      [apply keeps_views_handle_Blame|apply reads_views_handle_Blame|].
    intros blames.
    apply reads_views_bind;
      [apply keeps_views_mapM, keeps_views_BlameTree_Create
      |by apply reads_views_mapM; [apply keeps_views_BlameTree_Create|]|].
    intros blaming. apply reads_views_ret.
Qed.

Lemma keeps_views_DataStore_Blame fuel u position :
  keeps_views (DataStore_Blame fuel u position).
Proof.
  unfold DataStore_Blame.
  apply keeps_views_bind; [apply keeps_views_ReadStrictSync|]. intros dh.
  apply keeps_views_BlameTree_Create.
Qed.


Lemma keeps_views_collect_blame fuel u position :
  keeps_views (collect_blame fuel u position).
Proof.
  unfold collect_blame.
  apply keeps_views_bind; [apply keeps_views_DataStore_Blame|]. intros t.
  apply keeps_views_mapM. intros leaf.
  apply keeps_views_bind; [apply keeps_views_ReadStrictSync|]. intros sh.
  apply keeps_views_bind; [apply keeps_views_lift|]. intros d.
  apply keeps_views_ret.
Qed.


Lemma keeps_views_CreateInputSourceMapFor fuel u :
  keeps_views (CreateInputSourceMapFor fuel u).
Proof.
  unfold CreateInputSourceMapFor.
  apply keeps_views_bind; [apply keeps_views_ReadStrictSync|]. intros dh.
  apply keeps_views_bind; [apply keeps_views_sourceMap_Value|]. intros sm.
  apply keeps_views_bind; [|intros; apply keeps_views_ret].
  apply keeps_views_mapM. intros targetPosition. apply keeps_views_collect_blame.
Qed.

Lemma keeps_views_inputSourceMap_Value fuel h :
  keeps_views (inputSourceMap_Value fuel h).
Proof.
  intros s. unfold inputSourceMap_Value, Lazy_Value, handle_metadata, handle_record.
  unfold bind, ret, throw, modify.
  destruct (objects s !! read h) as [r|]; [|apply same_views_refl].
  destruct (metadata r) as [md|]; [|apply same_views_refl].
  destruct (inputSourceMap md); [apply same_views_refl|].
  pose proof (keeps_views_CreateInputSourceMapFor fuel (captured_uri md) s) as Hk.
  destruct (CreateInputSourceMapFor fuel (captured_uri md) s) as [[v|e] s1];
    simpl in *; [|done].
  eapply same_views_trans; [exact Hk|]. apply fill_inputSourceMap_same_views.
Qed.

End StableFacts.

(** *** The invariant of the store *)

Lemma sourceMap_of_mono (st st' : gmap string loc) md sm :
  (forall k v, st !! k = Some v -> is_Some (st' !! k)) ->
  sourceMap_of st md = Ok sm -> sourceMap_of st' md = Ok sm.
Proof.
  intros Hsub. unfold sourceMap_of.
  destruct (sourceMapFactory md) as [factory|]; [|done].
  destruct (List.find _ _) as [x|] eqn:Hfind; [done|]. intros [= <-].
  destruct (List.find (fun inputFile => bool_decide (st' !! inputFile = None)) _)
    as [y|] eqn:Hfind'; [|done].
  apply find_some in Hfind' as [Hin Hy]. apply bool_decide_eq_true in Hy.
  pose proof (find_none _ _ Hfind y Hin) as Hn. simpl in Hn.
  apply bool_decide_eq_false in Hn.
  destruct (st !! y) as [v|] eqn:E; [|done].
  destruct (Hsub y v E) as [v' Hv']. congruence.
Qed.

Lemma coherent_grow (s s' : DataStore) d :
  (forall k v, store s !! k = Some v -> is_Some (store s' !! k)) ->
  objects s' !! d = objects s !! d ->
  view_byLine s d
  = result_map (fun sm => eachMappingByLine (eachMapping sm)) (view_sourceMap s d) ->
  view_byLine s' d
  = result_map (fun sm => eachMappingByLine (eachMapping sm)) (view_sourceMap s' d).
Proof.
  intros Hsub Hobj. unfold view_byLine, view_sourceMap. rewrite Hobj.
  destruct (objects s !! d) as [r|]; [|done].
  destruct (metadata r) as [md|]; [|done].
  destruct (sourceMapEachMappingByLine md) as [idx|]; [|done].
  destruct (sourceMap md) as [sm|]; [done|].
  destruct (sourceMap_of (store s) md) as [sm|e] eqn:E; [|done].
  by rewrite (sourceMap_of_mono _ _ _ _ Hsub E).
Qed.

Section InvariantFacts.
Context `{UriLibrary}.

Lemma store_ok_empty : store_ok empty_DataStore.
Proof.
  unfold store_ok, empty_DataStore. simpl.
  split; [by intros k d; rewrite lookup_empty|].
  split; [by intros k d; rewrite lookup_empty|].
  split; [by intros d r md; rewrite lookup_empty|].
  intros d. unfold view_byLine, view_sourceMap. simpl. by rewrite lookup_empty.
Qed.

Lemma store_ok_same_views s s' : store_ok s -> same_views s s' -> store_ok s'.
Proof.
  intros (Hk & Hr & Hc & Hv) (_ & Hst & Hu & Hm & Hb & Hp). unfold store_ok.
  rewrite Hst, Hu. split; [done|]. split; [|split].
  - intros k d Hd. destruct (Hr k d Hd) as [r Hro]. specialize (Hp d).
    rewrite Hro in Hp. simpl in Hp. by destruct (objects s' !! d).
  - intros d r' md' Hr' Hmd'. specialize (Hp d). rewrite Hr' in Hp.
    destruct (objects s !! d) as [r|] eqn:Hro; simpl in Hp; [|done].
    destruct Hp as (_ & _ & Hp). rewrite Hmd' in Hp.
    destruct (metadata r) as [md|] eqn:Hmd; [|done].
    destruct Hp as (_ & _ & Hcu & Hcr). rewrite <- Hcu, <- Hcr. by eapply Hc.
  - intros d. by rewrite Hb, Hm.
Qed.

Lemma store_ok_set_uid s n : store_ok s -> (uid s <= n)%N -> store_ok (set_uid n s).
Proof.
  intros (Hk & Hr & Hc & Hv) Hn. unfold store_ok, set_uid. simpl.
  split; [|done]. intros k d Hd. destruct (Hk k d Hd) as (m & desc & -> & Hlt).
  exists m, desc. split; [done|lia].
Qed.

Lemma store_ok_cancel s : store_ok s -> store_ok (cancel s).
Proof. intros (Hk & Hr & Hc & Hv). done. Qed.

(** A successful write keeps the invariant. *)
Lemma store_ok_written description dat artifact idn factory s :
  store_ok s -> store s !! key_of (uid s) description = None ->
  store_ok (written description dat artifact idn factory s).
Proof.
  intros (Hk & Hr & Hc & Hv) Hfresh.
  set (uri := key_of (uid s) description).
  set (d := fresh (dom (objects s))).
  assert (Hd : objects s !! d = None).
  { apply not_elem_of_dom. apply is_fresh. }
  unfold store_ok, written. simpl. fold uri d.
  split; [|split; [|split]].
  - intros k d' Hl. destruct (decide (k = uri)) as [->|Hne].
    + exists (uid s), description. split; [done|lia].
    + rewrite lookup_insert_ne in Hl by done.
      destruct (Hk k d' Hl) as (m & desc & -> & Hlt).
      exists m, desc. split; [done|lia].
  - intros k d' Hl. destruct (decide (k = uri)) as [->|Hne].
    + rewrite lookup_insert_eq in Hl. injection Hl as <-.
      rewrite lookup_insert_eq. eauto.
    + rewrite lookup_insert_ne in Hl by done.
      destruct (Hr k d' Hl) as [r Hro].
      rewrite lookup_insert_ne; [eauto|]. intros <-. by rewrite Hd in Hro.
  - intros d' r md Hl Hmd. destruct (decide (d' = d)) as [->|Hne].
    + rewrite lookup_insert_eq in Hl. injection Hl as <-. simpl in Hmd.
      injection Hmd as <-. simpl. by rewrite lookup_insert_eq.
    + rewrite lookup_insert_ne in Hl by done.
      destruct (Hc d' r md Hl Hmd) as [Hcu Hcr]. split; [|done].
      rewrite lookup_insert_ne; [done|]. intros E. subst uri. rewrite <- E in Hcu.
      by rewrite Hfresh in Hcu.
  - intros d'. destruct (decide (d' = d)) as [->|Hne].
    + unfold view_byLine, view_sourceMap. simpl. by rewrite lookup_insert_eq.
    + apply (coherent_grow s); simpl; [| |done].
      * intros k v Hl. destruct (decide (k = uri)) as [->|Hne'].
        -- rewrite lookup_insert_eq. eauto.
        -- rewrite lookup_insert_ne by done. eauto.
      * by rewrite lookup_insert_ne.
Qed.

(** A new key for a record that is already stored keeps the invariant. *)
Lemma store_ok_forwarded description k0 d s :
  store_ok s -> store s !! key_of (uid s) description = None ->
  store s !! k0 = Some d ->
  store_ok (set_store <[key_of (uid s) description := d]> (set_uid (uid s + 1) s)).
Proof.
  intros (Hk & Hr & Hc & Hv) Hfresh Hd0.
  set (uri := key_of (uid s) description).
  unfold store_ok, set_store, set_uid. simpl. fold uri.
  split; [|split; [|split]].
  - intros k d' Hl. destruct (decide (k = uri)) as [->|Hne].
    + exists (uid s), description. split; [done|lia].
    + rewrite lookup_insert_ne in Hl by done.
      destruct (Hk k d' Hl) as (m & desc & -> & Hlt).
      exists m, desc. split; [done|lia].
  - intros k d' Hl. destruct (decide (k = uri)) as [->|Hne].
    + rewrite lookup_insert_eq in Hl. injection Hl as <-. by eapply Hr.
    + rewrite lookup_insert_ne in Hl by done. by eapply Hr.
  - intros d' r md Hl Hmd.
    destruct (Hc d' r md Hl Hmd) as [Hcu Hcr]. split; [|done].
    rewrite lookup_insert_ne; [done|]. intros E. subst uri. rewrite <- E in Hcu.
    by rewrite Hfresh in Hcu.
  - intros d'. apply (coherent_grow s); simpl; [| |done].
    + intros k v Hl. destruct (decide (k = uri)) as [->|Hne'].
      * rewrite lookup_insert_eq. eauto.
      * rewrite lookup_insert_ne by done. eauto.
    + done.
Qed.

End InvariantFacts.

(** *** The operations of the store *)

Lemma records_kept_refl s : records_kept s s.
Proof.
  intros k d r Hk Hr. split; [done|]. exists r. eauto using same_payload_refl.
Qed.

Lemma records_kept_trans s1 s2 s3 :
  records_kept s1 s2 -> records_kept s2 s3 -> records_kept s1 s3.
Proof.
  intros H12 H23 k d r Hk Hr.
  destruct (H12 k d r Hk Hr) as (Hk2 & r2 & Hr2 & Hp2).
  destruct (H23 k d r2 Hk2 Hr2) as (Hk3 & r3 & Hr3 & Hp3).
  split; [done|]. exists r3. eauto using same_payload_trans.
Qed.

Lemma records_kept_same_views s s' : same_views s s' -> records_kept s s'.
Proof.
  intros (_ & Hst & _ & _ & _ & Hp) k d r Hk Hr. rewrite Hst. split; [done|].
  specialize (Hp d). rewrite Hr in Hp.
  destruct (objects s' !! d) as [r'|]; simpl in Hp; [|done]. eauto.
Qed.

Lemma records_kept_set_uid s n : records_kept s (set_uid n s).
Proof.
  intros k d r Hk Hr. split; [done|]. exists r. eauto using same_payload_refl.
Qed.

Lemma records_kept_cancel s : records_kept s (cancel s).
Proof.
  intros k d r Hk Hr. split; [done|]. exists r. eauto using same_payload_refl.
Qed.

Section OperationFacts.
Context `{UriLibrary}.

Ltac unfold_comp :=
  unfold bind, ret, throw, get_state, modify, lift in *.

Lemma records_kept_written description dat artifact idn factory s :
  store s !! key_of (uid s) description = None ->
  records_kept s (written description dat artifact idn factory s).
Proof.
  intros Hfresh k d r Hk Hr. unfold written. simpl.
  rewrite lookup_insert_ne by congruence. split; [done|].
  exists r. split; [|apply same_payload_refl].
  rewrite lookup_insert_ne; [done|]. intros E.
  assert (Hd : objects s !! fresh (dom (objects s)) = None)
    by apply not_elem_of_dom, is_fresh.
  congruence.
Qed.

Lemma records_kept_forwarded description d0 s :
  store s !! key_of (uid s) description = None ->
  records_kept s
    (set_store <[key_of (uid s) description := d0]> (set_uid (uid s + 1) s)).
Proof.
  intros Hfresh k d r Hk Hr. simpl.
  rewrite lookup_insert_ne by congruence. split; [done|].
  exists r. eauto using same_payload_refl.
Qed.

(** [WriteData] on a store that satisfies the invariant. *)
Lemma WriteData_run description dat artifact idn factory s :
  UriLaws BaseUri -> store_ok s ->
  WriteData description dat artifact idn factory s
  = if isCancellationRequested s
    then (Throw OperationCanceledException, set_uid (uid s + 1) s)
    else (Ok {| key := key_of (uid s) description;
                read := fresh (dom (objects s)) |},
          written description dat artifact idn factory s).
Proof.
  intros Hlaws Hok. destruct (isCancellationRequested s) eqn:Hc.
  - by apply WriteData_cancelled.
  - apply WriteData_fresh; [done|done|]. by apply next_key_fresh.
Qed.

(** The [forward] closure on a store that satisfies the invariant. *)
Lemma forward_closure_run description input s :
  UriLaws BaseUri -> store_ok s ->
  forward_closure description input s
  = match store s !! key input with
    | Some d =>
        (Ok {| key := key_of (uid s) description; read := d |},
         set_store <[key_of (uid s) description := d]> (set_uid (uid s + 1) s))
    | None =>
        (Throw (CouldNotRead (key_of (uid s) description)),
         set_uid (uid s + 1) s)
    end.
Proof.
  intros Hlaws Hok. pose proof (next_key_fresh s description Hlaws Hok) as Hfresh.
  destruct Hlaws as [Hres _].
  assert (Hk : ResolveUri BaseUri (key_of (uid s) description)
               = key_of (uid s) description) by apply Hres.
  unfold forward_closure, createUri, Read. unfold_comp.
  unfold set_uid, set_store. simpl. fold (key_of (uid s) description).
  rewrite Hk. destruct (store s !! key input) as [d|] eqn:Hin.
  - by rewrite lookup_insert_eq.
  - rewrite lookup_delete_eq. by rewrite delete_id.
Qed.

Lemma perform_store_ok op s :
  UriLaws BaseUri -> store_ok s -> store_ok (perform op s).
Proof.
  intros Hlaws Hok.
  pose proof (fun d => next_key_fresh s d Hlaws Hok) as Hfresh.
  destruct op; simpl.
  - rewrite WriteData_run by done. destruct (isCancellationRequested s); simpl.
    + apply store_ok_set_uid; [done|lia].
    + by apply store_ok_written.
  - unfold WriteDataWithSourceMap. simpl. rewrite WriteData_run by done.
    destruct (isCancellationRequested s); simpl.
    + apply store_ok_set_uid; [done|lia].
    + by apply store_ok_written.
  - unfold Forward. simpl. rewrite forward_closure_run by done.
    destruct (store s !! key input) as [d|] eqn:Hin; simpl.
    + by eapply store_ok_forwarded.
    + apply store_ok_set_uid; [done|lia].
  - eapply store_ok_same_views; [done|apply keeps_views_sourceMap_Value].
  - eapply store_ok_same_views; [done|apply keeps_views_byLine_Value].
  - eapply store_ok_same_views; [done|apply keeps_views_inputSourceMap_Value].
  - eapply store_ok_same_views; [done|apply keeps_views_DataStore_Blame].
  - by apply store_ok_cancel.
Qed.

Lemma perform_records_kept op s :
  UriLaws BaseUri -> store_ok s -> records_kept s (perform op s).
Proof.
  intros Hlaws Hok.
  pose proof (fun d => next_key_fresh s d Hlaws Hok) as Hfresh.
  destruct op; simpl.
  - rewrite WriteData_run by done. destruct (isCancellationRequested s); simpl.
    + apply records_kept_set_uid.
    + by apply records_kept_written.
  - unfold WriteDataWithSourceMap. simpl. rewrite WriteData_run by done.
    destruct (isCancellationRequested s); simpl.
    + apply records_kept_set_uid.
    + by apply records_kept_written.
  - unfold Forward. simpl. rewrite forward_closure_run by done.
    destruct (store s !! key input) as [d|] eqn:Hin; simpl.
    + by apply records_kept_forwarded.
    + apply records_kept_set_uid.
  - apply records_kept_same_views, keeps_views_sourceMap_Value.
  - apply records_kept_same_views, keeps_views_byLine_Value.
  - apply records_kept_same_views, keeps_views_inputSourceMap_Value.
  - apply records_kept_same_views, keeps_views_DataStore_Blame.
  - apply records_kept_cancel.
Qed.

Lemma perform_all_store_ok ops s :
  UriLaws BaseUri -> store_ok s -> store_ok (perform_all ops s).
Proof.
  intros Hlaws. revert s. induction ops as [|op ops IH]; intros s Hok; [done|].
  simpl. apply IH. by apply perform_store_ok.
Qed.

Lemma perform_all_records_kept ops s :
  UriLaws BaseUri -> store_ok s -> records_kept s (perform_all ops s).
Proof.
  intros Hlaws. revert s. induction ops as [|op ops IH]; intros s Hok.
  - apply records_kept_refl.
  - simpl. eapply records_kept_trans; [by apply perform_records_kept|].
    apply IH. by apply perform_store_ok.
Qed.

(** Every state of a store that started empty satisfies the invariant. *)
Lemma reachable_store_ok s : UriLaws BaseUri -> reachable s -> store_ok s.
Proof.
  intros Hlaws [ops ->]. apply perform_all_store_ok; [done|apply store_ok_empty].
Qed.

End OperationFacts.

(** *** The example URI helpers satisfy the laws *)

Lemma prefix_m_pretty_N_go (x : N) (s : string) :
  String.prefix "m" s = false -> String.prefix "m" (pretty_N_go x s) = false.
Proof.
  revert s. induction (N.lt_wf_0 x) as [x _ IH]. intros s Hs.
  destruct (decide (x = 0)%N) as [->|Hx].
  - by rewrite pretty_N_go_0.
  - rewrite pretty_N_go_step by lia. apply IH.
    + apply N.div_lt; lia.
    + unfold pretty_N_char. by repeat case_match.
Qed.

Lemma prefix_mem_pretty (n : N) (rest : string) :
  String.prefix "mem:///" (pretty n +:+ rest) = false.
Proof.
  assert (Hm : String.prefix "m" (pretty n) = false).
  { unfold pretty, pretty_N. case_decide; [done|].
    by apply prefix_m_pretty_N_go. }
  assert (Hne : pretty n <> EmptyString).
  { unfold pretty, pretty_N. case_decide; [done|].
    destruct (decide (0 < n)%N) as [Hpos|]; [|lia].
    rewrite pretty_N_go_step by done. intros E.
    pose proof (prefix_m_pretty_N_go (n `div` 10)%N
                  (String (pretty_N_char (n `mod` 10)) EmptyString)) as Hp.
    assert (Hlen : forall x s, s <> EmptyString -> pretty_N_go x s <> EmptyString).
    { clear. intros x. induction (N.lt_wf_0 x) as [x _ IH]. intros s Hs.
      destruct (decide (x = 0)%N) as [->|Hx]; [by rewrite pretty_N_go_0|].
      rewrite pretty_N_go_step by lia. apply IH; [apply N.div_lt; lia|done]. }
    by apply Hlen in E. }
  destruct (pretty n) as [|a p]; [done|]. rewrite app_cons_s.
  change (String.prefix "mem:///" (String a (p +:+ rest)))
    with (if ascii_dec "m" a then String.prefix "em:///" (p +:+ rest) else false).
  change (String.prefix "m" (String a p))
    with (if ascii_dec "m" a then String.prefix EmptyString p else false) in Hm.
  destruct (ascii_dec "m" a); [|done]. by destruct p.
Qed.

Lemma example_uris_laws : @UriLaws example_uris BaseUri.
Proof.
  split.
  - intros rel. simpl.
    destruct (String.prefix "mem:///" rel) eqn:E; [by rewrite E|].
    assert (String.prefix "mem:///" ("mem:///" +:+ rel) = true) as ->
      by (by destruct rel).
    done.
  - exists "mem:///". intros n q. simpl. by rewrite prefix_mem_pretty.
Qed.

(** *** Write-once *)

Lemma kept_accessors s s' uri d r :
  records_kept s s' -> store s !! uri = Some d -> objects s !! d = Some r ->
  let h := {| key := uri; read := d |} in
  ReadStrictSync uri s' = (Ok h, s')
  /\ fst (ReadData h s') = Ok (data r)
  /\ fst (handle_identity h s') = Ok (identity r)
  /\ fst (handle_artifactType h s') = fst (handle_artifactType h s).
Proof.
  intros Hkept Hk Hr h. destruct (Hkept uri d r Hk Hr) as (Hk' & r' & Hr' & Hp).
  destruct Hp as (Hdat & Hid & Hmd).
  rewrite ReadStrictSync_run, Hk'. split; [done|].
  unfold ReadData, handle_identity, handle_artifactType, handle_record, bind, ret.
  simpl. rewrite Hr, Hr'. simpl.
  split; [by rewrite Hdat|]. split; [by rewrite Hid|].
  destruct (metadata r) as [md|], (metadata r') as [md'|]; try done.
  simpl. by destruct Hmd as (-> & _).
Qed.

(** C1 (as amended). Write-once: a write to a key that already holds a record
    fails and changes nothing - with the error "can only write ... once"
    when cancellation has not been requested, with the cancellation error
    otherwise - and whatever the users of the store do next, reading that key
    yields the record of the first write: same content, same identity, same
    artifact type. *)
Theorem write_once `{UriLibrary} (uri dat : string) (md : option Metadata)
    (idn : list string) (s : DataStore) (d : loc) (r : Data) (ops : list Operation) :
  UriLaws BaseUri -> store_ok s ->
  store s !! uri = Some d -> objects s !! d = Some r ->
  WriteDataInternal uri dat md idn s
  = (Throw (if isCancellationRequested s then OperationCanceledException
            else WriteConflict uri), s)
  /\ let s' := perform_all ops s in
     let h := {| key := uri; read := d |} in
     ReadStrictSync uri s' = (Ok h, s')
     /\ fst (ReadData h s') = Ok (data r)
     /\ fst (handle_identity h s') = Ok (identity r)
     /\ fst (handle_artifactType h s') = fst (handle_artifactType h s).
Proof.
  intros Hlaws Hok Hk Hr. split.
  - by eapply WriteDataInternal_occupied.
  - apply kept_accessors; [|done|done]. by apply perform_all_records_kept.
Qed.

Lemma write_once_witness :
  let s := @perform example_uris (op_WriteData "d" "first" "text" ["id"] None)
             empty_DataStore in
  let uri := @key_of example_uris 0 "d" in
  let s' := @perform_all example_uris
              [op_sink_forward FALLBACK_DEFAULT_OUTPUT_ARTIFACT "copy" {| key := uri; read := 0%nat |};
               op_WriteData "d" "third" "text" [] None] s in
  @WriteDataInternal example_uris uri "second" None [] s
  = (Throw (WriteConflict uri), s)
  /\ fst (ReadData {| key := uri; read := 0%nat |} s') = Ok "first".
Proof.
  intros s uri s'.
  destruct (@write_once example_uris uri "second" None [] s 0%nat
              {| data := "first";
                 metadata := Some
                   {| artifactType := "text"; inputSourceMap := None;
                      sourceMap := None; sourceMapEachMappingByLine := None;
                      sourceMapFactory := None; captured_uri := uri;
                      captured_result := {| key := uri; read := 0%nat |} |};
                 identity := ["id"] |}
              [op_sink_forward FALLBACK_DEFAULT_OUTPUT_ARTIFACT "copy" {| key := uri; read := 0%nat |};
               op_WriteData "d" "third" "text" [] None])
    as (Hfail & _ & Hdata & _).
  - exact example_uris_laws.
  - apply perform_store_ok; [exact example_uris_laws|apply store_ok_empty].
  - reflexivity.
  - reflexivity.
  - split; [exact Hfail|exact Hdata].
Defined.

(** The claim as first stated fails once cancellation has been requested:
    the second write to an occupied key then fails with the cancellation
    error, not with "can only write ... once". *)
Lemma write_conflict_after_cancellation :
  let s := cancel (@perform example_uris
                     (op_WriteData "d" "first" "text" ["id"] None) empty_DataStore) in
  let uri := @key_of example_uris 0 "d" in
  store s !! uri = Some 0%nat
  /\ fst (@WriteDataInternal example_uris uri "second" None [] s)
     = Throw OperationCanceledException
  /\ fst (@WriteDataInternal example_uris uri "second" None [] s)
     <> Throw (WriteConflict uri).
Proof.
  intros s uri. split; [reflexivity|]. split; [reflexivity|]. discriminate.
Qed.

(** *** Cancellation *)

Section CancellationFacts.
Context `{UriLibrary}.

(** After cancellation, [WriteData] and the [write] of a sink fail and leave
    the dictionary and the records as they are. *)
Lemma write_after_cancellation defaultArtifact description dat artifact idn factory s :
  isCancellationRequested s = true ->
  let '(r, s') := WriteDataWithSourceMap (getDataSink defaultArtifact)
                    description dat artifact idn factory s in
  r = Throw OperationCanceledException
  /\ store s' = store s /\ objects s' = objects s.
Proof.
  intros Hc. unfold WriteDataWithSourceMap. simpl.
  by rewrite WriteData_cancelled.
Qed.

(** The [forward] of a sink does not look at the cancellation flag. *)
Lemma forward_closure_cancel description input s :
  forward_closure description input (cancel s)
  = (fst (forward_closure description input s),
     cancel (snd (forward_closure description input s))).
Proof.
  unfold forward_closure, createUri, Read, bind, modify. simpl.
  by destruct (_ !! ResolveUri _ _).
Qed.

(** So after cancellation [Forward] still succeeds and binds a new key. *)
Lemma Forward_after_cancellation defaultArtifact description A d s :
  UriLaws BaseUri -> store_ok s ->
  isCancellationRequested s = true -> store s !! key A = Some d ->
  exists B s',
    Forward (getDataSink defaultArtifact) description A s = (Ok B, s')
    /\ store s !! key B = None
    /\ store s' !! key B = Some d.
Proof.
  intros Hlaws Hok _ HA. unfold Forward. simpl.
  rewrite forward_closure_run by done. rewrite HA.
  eexists _, _. split; [reflexivity|]. simpl.
  split; [by apply next_key_fresh|apply lookup_insert_eq].
Qed.

End CancellationFacts.

(** C3 does not hold of [forward]. On a store that holds the artifact A and
    whose cancellation has been requested, [Forward] does not fail with the
    cancellation error: it returns a handle and binds a key that was not in
    the store before. ([WriteData] and the [write] of the sink do fail and
    leave the store unchanged, see [write_after_cancellation].) *)
Theorem forward_ignores_cancellation :
  let s := cancel (@perform example_uris
                     (op_WriteData "a" "foo" "text" ["x"] None) empty_DataStore) in
  let A := {| key := @key_of example_uris 0 "a"; read := 0%nat |} in
  let B := {| key := @key_of example_uris 1 "b"; read := 0%nat |} in
  let out := Forward (@getDataSink example_uris FALLBACK_DEFAULT_OUTPUT_ARTIFACT) "b" A s in
  isCancellationRequested s = true
  /\ store s !! key A = Some (read A)
  /\ fst out = Ok B
  /\ store s !! key B = None
  /\ store (snd out) !! key B = Some 0%nat.
Proof. repeat split. Qed.

(** *** Writing with a source map factory *)

Section FactoryFacts.
Context `{UriLibrary}.



End FactoryFacts.




(** *** Forwarding *)





(** *** Descriptions *)

(** C9. Description round trip: the handle [WriteData] returns for the
    description [d] has [Description] equal to [d]; and [WriteData] does
    return a handle, for the key made of the counter, a question mark and
    the encoded description under the root, whenever cancellation has not
    been requested. *)
Theorem Description_round_trip `{UriLibrary}
    (d dat artifact : string) (idn : list string)
    (factory : option (DataHandle -> RawSourceMap)) (s : DataStore) :
  UriLaws BaseUri ->
  (forall h s', WriteData d dat artifact idn factory s = (Ok h, s') ->
                Description h = Ok d)
  /\ (store_ok s -> isCancellationRequested s = false ->
      exists h s', WriteData d dat artifact idn factory s = (Ok h, s')
                   /\ key h = ResolveUri BaseUri
                                (pretty (uid s) +:+ "?" +:+ encodeURIComponent d)
                   /\ Description h = Ok d).
Proof.
  intros Hlaws. split.
  - intros h s'. unfold WriteData, createUri, WriteDataInternal, ThrowIfCancelled, Read.
    unfold bind, ret, throw, get_state, modify. simpl.
    fold (key_of (uid s) d).
    destruct (isCancellationRequested s); [done|]. simpl.
    destruct (store s !! key_of (uid s) d); [done|]. simpl.
    destruct Hlaws as [Hres Hrel].
    assert (Hk : ResolveUri BaseUri (key_of (uid s) d) = key_of (uid s) d)
      by apply Hres.
    rewrite Hk, lookup_insert_eq. intros [= <- _].
    apply Description_key_of. by split.
  - intros Hok Hc. rewrite WriteData_run by done. rewrite Hc.
    eexists _, _. split; [reflexivity|]. split; [reflexivity|].
    by apply Description_key_of.
Qed.

Lemma Description_round_trip_witness :
  exists h s',
    @WriteData example_uris "a b/c?d" "x" "text" [] None empty_DataStore = (Ok h, s')
    /\ key h = "mem:///0?a%20b%2Fc%3Fd"
    /\ Description h = Ok "a b/c?d".
Proof.
  destruct (@Description_round_trip example_uris "a b/c?d" "x" "text" [] None
              empty_DataStore example_uris_laws) as [_ Hret].
  destruct (Hret store_ok_empty eq_refl) as (h & s' & Hw & Hk & Hd).
  exists h, s'. split; [exact Hw|]. split; [|exact Hd].
  rewrite Hk. reflexivity.
Defined.

(** *** The read-through view: one promise for each uri *)

Lemma calls_app e l1 l2 : calls e (l1 ++ l2) = (calls e l1 + calls e l2)%nat.
Proof. unfold calls. by rewrite List.filter_app, length_app. Qed.

Lemma calls_nil e : calls e [] = 0%nat.
Proof. done. Qed.

Section ReadThroughFacts.
Context `{UriLibrary}.

Lemma after_fetch_cases uri fetched w :
  (exists w', after_fetch uri fetched w = (w', [])
              /\ cache (view w') = <[uri := Settled (Resolved None)]> (cache (view w))
              /\ uris (view w') = uris (view w) /\ the_store w' = the_store w)
  \/ (exists w' r, after_fetch uri fetched w = (w', [CallWriteData uri])
              /\ cache (view w') = <[uri := AwaitWriteData r]> (cache (view w))
              /\ uris (view w') = uris (view w)).
Proof.
  unfold after_fetch. destruct (negb _).
  - left. eexists. by repeat split.
  - right. destruct (WriteData _ _ _ _ _ _) as [r s']. eexists _, r. by repeat split.
Qed.

(** A call of [Read] leaves a promise in the slot of its uri, makes no call
    to a collaborator, and leaves the other slots alone. *)
Lemma ReadThrough_Read_slot uri w :
  is_Some (cache (view (ReadThrough_Read uri w)) !! uri)
  /\ (forall uri', uri' <> uri ->
        cache (view (ReadThrough_Read uri w)) !! uri' = cache (view w) !! uri')
  /\ (forall p, cache (view w) !! uri = Some p -> ReadThrough_Read uri w = w)
  /\ (cache (view w) !! uri = None ->
        exists probe, cache (view (ReadThrough_Read uri w)) !! uri
                      = Some (AwaitStoreRead probe)).
Proof.
  unfold ReadThrough_Read. destruct (cache (view w) !! uri) as [p|] eqn:E.
  - rewrite E. split; [eauto|]. split; [done|]. split; [done|]. done.
  - destruct (Read uri (the_store w)) as [probe s']. simpl.
    rewrite lookup_insert_eq. split; [eauto|]. split.
    + intros uri' Hne. by rewrite lookup_insert_ne.
    + split; [done|]. eauto.
Qed.

(** A resumption of the promise of [uri'] leaves the other slots alone and
    makes calls for [uri'] only. *)
Lemma resume_other uri uri' io w w' effects :
  resume uri' io w = Some (w', effects) -> uri <> uri' ->
  cache (view w') !! uri = cache (view w) !! uri
  /\ calls (CallReadFile uri) effects = 0%nat
  /\ calls (CallReadUri uri) effects = 0%nat
  /\ calls (CallWriteData uri) effects = 0%nat.
Proof.
  intros Hres Hne.
  assert (Hneq : String.eqb uri uri' = false) by by apply String.eqb_neq.
  assert (Hone : forall l, (l = [] \/ l = [CallReadFile uri'] \/ l = [CallReadUri uri']
                            \/ l = [CallWriteData uri']) ->
                 calls (CallReadFile uri) l = 0%nat
                 /\ calls (CallReadUri uri) l = 0%nat
                 /\ calls (CallWriteData uri) l = 0%nat).
  { intros l [-> | [-> | [-> | ->]]]; unfold calls; simpl; by rewrite ?Hneq. }
  unfold resume in Hres.
  destruct (cache (view w) !! uri') as [[[h|e]| | |[h|e]|o]|]; try done;
    repeat match goal with
    | Hr : match ?io with Content _ => _ | Failed => _ end = Some _ |- _ =>
        destruct io as [data|]
    | Hr : (if ?b then _ else _) = Some _ |- _ => destruct b
    end;
    try (injection Hres as <- <-; simpl; rewrite ?lookup_insert_ne by done;
         split; [done|]; apply Hone; auto).
  all: injection Hres as Hres;
    destruct (after_fetch_cases uri' data w) as [(w1 & Hw & Hc & _)|(w1 & r & Hw & Hc & _)];
    rewrite Hw in Hres; injection Hres as <- <-;
    rewrite Hc, lookup_insert_ne by done; (split; [done|]); apply Hone; auto.
Qed.

(** The bound on the calls for [uri] is kept by every step. *)
Lemma step_calls_bounded uri w e1 e2 w' :
  calls_bounded uri w e1 -> step w e2 w' -> calls_bounded uri w' (e1 ++ e2).
Proof.
  intros Hb Hstep. unfold calls_bounded in *. rewrite !calls_app.
  destruct Hstep as [uri' w|uri' io w w' effects Hres|f w].
  - rewrite !calls_nil, !Nat.add_0_r.
    destruct (ReadThrough_Read_slot uri' w) as (_ & Hother & Hsame & Hnew).
    destruct (decide (uri' = uri)) as [->|Hne].
    + destruct (cache (view w) !! uri) as [p|] eqn:E.
      * by rewrite (Hsame p eq_refl), E.
      * destruct (Hnew eq_refl) as [probe ->]. done.
    + by rewrite Hother.
  - destruct (decide (uri' = uri)) as [->|Hne].
    + assert (Hrefl : String.eqb uri uri = true) by apply String.eqb_refl.
      set (f1 := calls (CallReadFile uri) e1) in *.
      set (n1 := calls (CallReadUri uri) e1) in *.
      set (k1 := calls (CallWriteData uri) e1) in *.
      clearbody f1 n1 k1. unfold resume in Hres.
      destruct (cache (view w) !! uri) as [[[h|e]| | |[h|e]|o]|] eqn:E; try done;
        repeat match goal with
        | Hr : match ?io with Content _ => _ | Failed => _ end = Some _ |- _ =>
            destruct io as [data|]
        | Hr : (if ?b then _ else _) = Some _ |- _ => destruct b
        end;
        try (injection Hres as <- <-; simpl; rewrite lookup_insert_eq;
             unfold calls; simpl; rewrite ?Hrefl; simpl; lia).
      all: injection Hres as Hres;
        destruct (after_fetch_cases uri data w)
          as [(w1 & Hw & Hc & _)|(w1 & r & Hw & Hc & _)];
        rewrite Hw in Hres; injection Hres as <- <-;
        rewrite Hc, lookup_insert_eq;
        unfold calls; simpl; rewrite ?Hrefl; simpl; lia.
    + destruct (resume_other uri uri' io w w' effects Hres) as (-> & -> & -> & ->);
        [done|]. by rewrite !Nat.add_0_r.
  - simpl. by rewrite !calls_nil, !Nat.add_0_r.
Qed.

Lemma run_calls_bounded uri w0 effects w :
  calls_bounded uri w0 [] -> run w0 effects w -> calls_bounded uri w effects.
Proof.
  intros H0 Hrun. induction Hrun as [w|w1 w2 w3 e1 e2 Hrun IH Hstep]; [done|].
  eapply step_calls_bounded; [by apply IH|done].
Qed.

(** A settled promise stays as it is. *)
Lemma step_settled uri o w effects w' :
  cache (view w) !! uri = Some (Settled o) -> step w effects w' ->
  cache (view w') !! uri = Some (Settled o)
  /\ calls (CallReadFile uri) effects = 0%nat
  /\ calls (CallReadUri uri) effects = 0%nat
  /\ calls (CallWriteData uri) effects = 0%nat.
Proof.
  intros Hs Hstep. destruct Hstep as [uri' w|uri' io w w' effects Hres|f w].
  - split; [|done].
    destruct (ReadThrough_Read_slot uri' w) as (_ & Hother & Hsame & _).
    destruct (decide (uri' = uri)) as [->|Hne].
    + by rewrite (Hsame _ Hs).
    + by rewrite Hother.
  - destruct (decide (uri' = uri)) as [->|Hne].
    + unfold resume in Hres. by rewrite Hs in Hres.
    + destruct (resume_other uri uri' io w w' effects Hres) as (-> & -> & -> & ->);
        done.
  - done.
Qed.

Lemma run_settled uri o w effects w' :
  cache (view w) !! uri = Some (Settled o) -> run w effects w' ->
  cache (view w') !! uri = Some (Settled o)
  /\ calls (CallReadFile uri) effects = 0%nat
  /\ calls (CallReadUri uri) effects = 0%nat
  /\ calls (CallWriteData uri) effects = 0%nat.
Proof.
  intros Hs Hrun. induction Hrun as [w|w1 w2 w3 e1 e2 Hrun IH Hstep]; [done|].
  destruct (IH Hs) as (Hs2 & Hf & Hn & Hw).
  destruct (step_settled uri o w2 e2 w3 Hs2 Hstep) as (Hs3 & Hf' & Hn' & Hw').
  rewrite !calls_app. split; [done|]. lia.
Qed.

End ReadThroughFacts.

(** C6. Read-through deduplication: along any run of a view that started
    empty, [fs.ReadFile], [ReadUri] and [store.WriteData] are each called at
    most once for a uri; a call of [Read(uri)] leaves a promise in the slot
    of the uri before control returns, and none of those calls has been made
    for a uri whose slot is still empty; a second call of [Read(uri)] starts
    nothing and gets the promise of the slot; and that promise settles once,
    so all callers observe the same outcome - the same handle, hence the same
    key, when it is a handle. *)
Theorem read_through_deduplicates `{UriLibrary} (s0 : DataStore) (uri : string)
    (effects : list Effect) (w : World) :
  run (GetReadThroughScope s0) effects w ->
  ((calls (CallReadFile uri) effects <= 1)%nat
   /\ (calls (CallReadUri uri) effects <= 1)%nat
   /\ (calls (CallWriteData uri) effects <= 1)%nat)
  /\ (let w1 := ReadThrough_Read uri w in
      is_Some (cache (view w1) !! uri)
      /\ ReadThrough_Read uri w1 = w1
      /\ (cache (view w) !! uri = None ->
          calls (CallReadFile uri) effects = 0%nat
          /\ calls (CallReadUri uri) effects = 0%nat
          /\ calls (CallWriteData uri) effects = 0%nat))
  /\ (forall o effects' w',
        outcome uri w = Some o -> run w effects' w' -> outcome uri w' = Some o).
Proof.
  intros Hrun.
  assert (Hb : calls_bounded uri w effects).
  { eapply run_calls_bounded; [|exact Hrun]. unfold calls_bounded. simpl.
    by rewrite lookup_empty. }
  split; [|split].
  - unfold calls_bounded in Hb.
    destruct (cache (view w) !! uri) as [[probe| | |written|o]|]; lia.
  - intros w1. destruct (ReadThrough_Read_slot uri w) as (Hsome & _ & _ & _).
    split; [done|]. split.
    + destruct Hsome as [p Hp].
      destruct (ReadThrough_Read_slot uri w1) as (_ & _ & Hsame & _). by eapply Hsame.
    + intros Hnone. unfold calls_bounded in Hb. by rewrite Hnone in Hb.
  - intros o effects' w'. unfold outcome.
    destruct (cache (view w) !! uri) as [[probe| | |written|o']|] eqn:E; try done.
    intros [= ->] Hrun'. by destruct (run_settled uri o w effects' w' E Hrun') as [-> _].
Qed.

Lemma read_through_deduplicates_witness :
  let uri := "file:///tmp/a/readme.md" in
  exists effects w,
    @run example_uris (GetReadThroughScope empty_DataStore) effects w
    /\ calls (CallReadFile uri) effects = 1%nat
    /\ (calls (CallWriteData uri) effects <= 1)%nat
    /\ outcome uri w
       = Some (Resolved (Some {| key := @key_of example_uris 0 uri; read := 0%nat |})).
Proof.
  intros uri.
  set (w0 := GetReadThroughScope empty_DataStore).
  set (w1 := @ReadThrough_Read example_uris uri w0).
  set (w2 := @ReadThrough_Read example_uris uri w1).
  set (w3 := fst (@advance example_uris uri Failed (w2, []))).
  set (w4 := fst (@advance example_uris uri (Content (Some "hello")) (w3, []))).
  set (w5 := fst (@advance example_uris uri Failed (w4, []))).
  assert (Hrun : @run example_uris w0
                   (((([] ++ []) ++ []) ++ [CallReadFile uri]) ++ [CallWriteData uri] ++ []) w5).
  { rewrite app_assoc.
    eapply run_step; [eapply run_step; [eapply run_step;
      [eapply run_step; [eapply run_step; [apply run_done|]|]|]|]|].
    - apply (step_Read uri w0).
    - apply (step_Read uri w1).
    - by apply (step_resume uri Failed w2 w3).
    - by apply (step_resume uri (Content (Some "hello")) w3 w4).
    - by apply (step_resume uri Failed w4 w5). }
  destruct (@read_through_deduplicates example_uris empty_DataStore uri _ w5 Hrun)
    as ((_ & _ & Hwrites) & _ & _).
  eexists _, w5. split; [exact Hrun|]. split; [reflexivity|].
  split; [exact Hwrites|reflexivity].
Defined.

(** *** The read-through view: what a read stores *)

Section ReadOutcomes.
Context `{UriLibrary}.

Lemma Read_miss uri s :
  store s !! ResolveUri BaseUri uri = None ->
  Read uri s = (Throw (CouldNotRead (ResolveUri BaseUri uri)), s).
Proof. intros Hmiss. unfold Read. by rewrite Hmiss. Qed.

(** The first two steps of a read that misses the store: the promise is
    installed, the probe fails, [fs.ReadFile] is called. *)
Lemma Read_then_probe_miss uri io w :
  cache (view w) !! uri = None ->
  store (the_store w) !! ResolveUri BaseUri uri = None ->
  advance uri io (ReadThrough_Read uri w, [])
  = (set_promise uri AwaitReadFile w, [CallReadFile uri]).
Proof.
  intros Hslot Hmiss. unfold advance, ReadThrough_Read, resume.
  rewrite Hslot, Read_miss by done. simpl. rewrite lookup_insert_eq. simpl.
  unfold set_promise. simpl. by rewrite insert_insert_eq.
Qed.

Lemma advance_settled uri io w effects o :
  cache (view w) !! uri = Some (Settled o) ->
  advance uri io (w, effects) = (w, effects).
Proof. intros Hs. unfold advance, resume. simpl. by rewrite Hs. Qed.

(** A read that runs undisturbed is a run of the view. *)
Lemma advance_run uri io w0 effects w :
  run w0 effects w ->
  run w0 (snd (advance uri io (w, effects))) (fst (advance uri io (w, effects))).
Proof.
  intros Hrun. unfold advance. simpl.
  destruct (resume uri io w) as [[w' effects']|] eqn:E; simpl; [|done].
  eapply run_step; [exact Hrun|]. by eapply step_resume.
Qed.

Lemma Read_to_completion_run uri file net w :
  run w (snd (Read_to_completion uri file net w))
    (fst (Read_to_completion uri file net w)).
Proof.
  unfold Read_to_completion.
  assert (H0 : run w [] (ReadThrough_Read uri w)).
  { change (@nil Effect) with (@nil Effect ++ []).
    eapply run_step; [apply run_done|apply step_Read]. }
  pose proof (advance_run uri file _ _ _ H0) as H1.
  destruct (advance uri file (ReadThrough_Read uri w, [])) as [w1 e1].
  simpl in H1.
  pose proof (advance_run uri file _ _ _ H1) as H2.
  destruct (advance uri file (w1, e1)) as [w2 e2].
  simpl in H2.
  pose proof (advance_run uri net _ _ _ H2) as H3.
  destruct (advance uri net (w2, e2)) as [w3 e3].
  simpl in H3.
  exact (advance_run uri net _ _ _ H3).
Qed.


End ReadOutcomes.



Section ReadStores.
Context `{UriLibrary}.

Lemma truthy_nonempty (t : string) : t <> EmptyString -> truthy (Some t) = true.
Proof. by destruct t. Qed.



End ReadStores.




(** A parent folder location with the pattern [$$]: what is stored is not
    the text with the placeholder replaced by that location. *)
Lemma read_through_dollar_pattern :
  let uri := "file:///tmp/a$$b/readme.md" in
  let w' := fst (@Read_to_completion example_uris uri
                   (Content (Some "$(this-folder)/x")) Failed
                   (GetReadThroughScope empty_DataStore)) in
  @ParentFolderUri example_uris uri = Some "file:///tmp/a$$b"
  /\ fst (ReadData {| key := @key_of example_uris 0 uri; read := 0%nat |}
            (the_store w'))
     = Ok "file:///tmp/a$b/x".
Proof. repeat split. Qed.

(** A text that is empty once the placeholder is replaced: the read
    resolves to null and nothing is written. *)
Lemma read_through_empty_after_replacement :
  let uri := "readme" in
  let w' := fst (@Read_to_completion example_uris uri
                   (Content (Some "$(this-folder)")) Failed
                   (GetReadThroughScope empty_DataStore)) in
  @ParentFolderUri example_uris uri = None
  /\ outcome uri w' = Some (Resolved None)
  /\ store (the_store w') = ∅.
Proof. repeat split. Qed.

(** *** Loops over computations that only fill lazy slots *)

Lemma bind_Ok {A B} (c : Comp A) (k : A -> Comp B) s b :
  fst (bind c k s) = Ok b ->
  exists a s1, c s = (Ok a, s1) /\ fst (k a s1) = Ok b.
Proof.
  unfold bind. destruct (c s) as [[a|e] s1]; [|done]. eauto.
Qed.

Lemma mapM_results {A B} (f : A -> Comp B) (l : list A) (ys : list B) s s1 :
  (forall x, keeps_views (f x)) -> (forall x, reads_views (f x)) ->
  same_views s s1 ->
  Forall2 (fun x y => fst (f x s) = Ok y) l ys ->
  exists s2, mapM f l s1 = (Ok ys, s2) /\ same_views s s2.
Proof.
  intros Hk Hr Hs HF. revert s1 Hs.
  induction HF as [|x y l ys Hxy HF IH]; intros s1 Hs.
  - exists s1. by split.
  - simpl. unfold bind at 1.
    pose proof (Hr x s s1 Hs) as Hfst. pose proof (Hk x s1) as Hkeep.
    destruct (f x s1) as [r s1'] eqn:E. simpl in *. rewrite Hxy in Hfst. subst r.
    destruct (IH s1') as (s2 & Hm & Hs2); [by eapply same_views_trans|].
    exists s2. split; [|done]. unfold bind, ret. by rewrite Hm.
Qed.

Lemma mapM_inv {A B} (f : A -> Comp B) (l : list A) (ys : list B) s s1 :
  (forall x, keeps_views (f x)) -> (forall x, reads_views (f x)) ->
  same_views s s1 ->
  fst (mapM f l s1) = Ok ys ->
  Forall2 (fun x y => fst (f x s) = Ok y) l ys.
Proof.
  intros Hk Hr. revert ys s1. induction l as [|x l IH]; intros ys s1 Hs; simpl.
  - intros [= <-]. constructor.
  - intros (y & s1' & Hx & Hrest)%bind_Ok.
    apply bind_Ok in Hrest as (ys' & s2 & Hm & Hret). injection Hret as <-.
    pose proof (Hk x s1) as Hkeep. rewrite Hx in Hkeep. simpl in Hkeep.
    constructor.
    + rewrite (Hr x s s1 Hs). by rewrite Hx.
    + eapply (IH ys' s1'); [by eapply same_views_trans|]. by rewrite Hm.
Qed.

(** *** Blame trees on a store *)

Section BlameFacts.
Context `{UriLibrary}.

Lemma handle_Blame_by_record (h h' : DataHandle) position :
  read h = read h' -> handle_Blame h position = handle_Blame h' position.
Proof. destruct h as [k d], h' as [k' d']. simpl. by intros <-. Qed.

(** The tree of a position: its node, and the trees of what the position
    blames in the record of its source. *)
Lemma BlameTree_Create_Ok fuel position s t :
  fst (BlameTree_Create fuel position s) = Ok t <->
  exists fuel' d byLine blaming,
    fuel = S fuel'
    /\ store s !! mp_source position = Some d
    /\ view_byLine s d = Ok byLine
    /\ Forall2 (fun b c => fst (BlameTree_Create fuel' b s) = Ok c)
         (Blame byLine (position_of position)) blaming
    /\ t = mkBlameTree position blaming.
Proof.
  split.
  - destruct fuel as [|fuel']; [done|]. simpl.
    intros (dh & s1 & Hread & Hrest)%bind_Ok.
    rewrite ReadStrictSync_run in Hread.
    destruct (store s !! mp_source position) as [d|] eqn:Hd; [|done].
    injection Hread as <- <-.
    apply bind_Ok in Hrest as (blames & s1 & Hblame & Hrest).
    destruct (handle_Blame_run {| key := mp_source position; read := d |}
                (position_of position) s) as (s1' & Hrun & Hs1).
    rewrite Hrun in Hblame. simpl in Hblame.
    destruct (view_byLine s d) as [byLine|] eqn:Hidx; [|done].
    injection Hblame as <- <-.
    apply bind_Ok in Hrest as (blaming & s2 & Hm & Hret). injection Hret as <-.
    exists fuel', d, byLine, blaming. repeat split; try done.
    eapply mapM_inv;
      [apply keeps_views_BlameTree_Create|apply reads_views_BlameTree_Create
      |exact Hs1|by rewrite Hm].
  - intros (fuel' & d & byLine & blaming & -> & Hd & Hidx & HF & ->). simpl.
    unfold bind at 1. rewrite ReadStrictSync_run, Hd.
    unfold bind at 1.
    destruct (handle_Blame_run {| key := mp_source position; read := d |}
                (position_of position) s) as (s1 & -> & Hs1).
    simpl. rewrite Hidx. simpl.
    destruct (mapM_results (BlameTree_Create fuel') _ blaming s s1
                (keeps_views_BlameTree_Create fuel')
                (reads_views_BlameTree_Create fuel') Hs1 HF) as (s2 & Hm & _).
    unfold bind, ret. by rewrite Hm.
Qed.

(** More fuel does not change a tree that was built. *)
Lemma BlameTree_Create_more_fuel fuel fuel' position s t :
  (fuel <= fuel')%nat ->
  fst (BlameTree_Create fuel position s) = Ok t ->
  fst (BlameTree_Create fuel' position s) = Ok t.
Proof.
  revert fuel' position t. induction fuel as [|fuel IH]; intros fuel' position t Hle;
    [done|].
  intros (f & d & byLine & blaming & [= <-] & Hd & Hidx & HF & ->)%BlameTree_Create_Ok.
  destruct fuel' as [|fuel']; [lia|].
  apply BlameTree_Create_Ok. exists fuel', d, byLine, blaming.
  repeat split; try done.
  eapply Forall2_impl; [exact HF|]. intros b c Hbc. simpl in Hbc.
  apply (IH fuel' b c); [lia|done].
Qed.



End BlameFacts.

(** *** The flattened table *)

Lemma length_app_s (s t : string) :
  String.length (s +:+ t) = (String.length s + String.length t)%nat.
Proof. induction s as [|a s IH]; [done|]. rewrite app_cons_s. simpl. by rewrite IH. Qed.


Section FlattenFacts.
Context `{UriLibrary}.






End FlattenFacts.

Section FlattenClaim.
Context `{UriLibrary}.




End FlattenClaim.



(** ** Part III. Further properties of the code *)

(** *** The per-line index, row by row *)

Lemma fold_push_mapping_length items acc :
  (length acc <= length (fold_left push_mapping items acc))%nat
  /\ (forall m, In m items ->
        (N.to_nat (generatedLine m) < length (fold_left push_mapping items acc))%nat)
  /\ (length (fold_left push_mapping items acc) = length acc
      \/ exists m, In m items
           /\ length (fold_left push_mapping items acc)
              = S (N.to_nat (generatedLine m))).
Proof.
  revert acc. induction items as [|m items IH]; intros acc; simpl.
  - split; [lia|]. split; [done|by left].
  - destruct (IH (push_mapping acc m)) as (Hge & Hall & Hlen).
    rewrite push_mapping_length in Hge, Hlen.
    split; [lia|]. split.
    + intros m' [<-|Hin]; [lia|by apply Hall].
    + destruct Hlen as [Hlen|(m' & Hin & Hlen)].
      * destruct (Nat.max_spec (length acc) (S (N.to_nat (generatedLine m))))
          as [[_ E]|[_ E]]; rewrite E in Hlen.
        -- right. exists m. auto.
        -- by left.
      * right. exists m'. auto.
Qed.

(** X1. The per-line index built by [sourceMapEachMappingByLine]: row [i]
    holds exactly the entries whose generated line is [i], in the order the
    consumer enumerates them; every entry has its row; and the index stops
    at the largest generated line, so its last row is never empty. *)
Theorem index_rows_hold_their_lines (table : list MappingItem) :
  (forall (i : nat) row, eachMappingByLine table !! i = Some row ->
     row = List.filter (fun m => generatedLine m =? N.of_nat i)%N table)
  /\ (forall m, In m table ->
        exists row, eachMappingByLine table !! N.to_nat (generatedLine m) = Some row
                    /\ In m row)
  /\ (forall row, last (eachMappingByLine table) = Some row -> row <> []).
Proof.
  destruct (fold_push_mapping_length table []) as (_ & Hall & Hlen).
  fold (eachMappingByLine table) in Hall, Hlen.
  assert (Hrow : forall (i : nat) row, eachMappingByLine table !! i = Some row ->
            row = List.filter (fun m => generatedLine m =? N.of_nat i)%N table).
  { intros i row Hi. rewrite <- eachMappingByLine_lookup, Nat2N.id. by rewrite Hi. }
  split; [exact Hrow|]. split.
  - intros m Hin.
    destruct (lookup_lt_is_Some_2 _ _ (Hall m Hin)) as [row Hi].
    exists row. split; [done|]. rewrite (Hrow _ _ Hi), N2Nat.id.
    apply filter_In. split; [done|]. apply N.eqb_refl.
  - intros row Hlast. rewrite last_lookup in Hlast.
    destruct Hlen as [Hlen|(m & Hin & Hlen)].
    + simpl in Hlen. apply length_zero_iff_nil in Hlen. by rewrite Hlen in Hlast.
    + rewrite Hlen in Hlast. simpl in Hlast.
      rewrite (Hrow _ _ Hlast), N2Nat.id. intros Hnil.
      assert (Hm : In m (List.filter (fun m' => generatedLine m' =? generatedLine m)%N
                           table)).
      { apply filter_In. split; [done|]. apply N.eqb_refl. }
      by rewrite Hnil in Hm.
Qed.

(** *** Blame between two entries *)

(** X2. Columns between two entries are attributed to the entry before
    them: when no entry of the line starts after column [col] and at or
    before column [col + k], [Blame] at [col + k] gives the results of
    [Blame] at [col], each moved [k] columns to the right. *)
Theorem Blame_between_entries (byLine : list (list MappingItem)) (ln col k : N) :
  (forall m, In m (default [] (byLine !! N.to_nat ln)) ->
     (generatedColumn m <= col \/ col + k < generatedColumn m)%N) ->
  Blame byLine {| line := ln; column := col + k |}
  = map (shift_column k) (Blame byLine {| line := ln; column := col |}).
Proof.
  intros Hgap. unfold Blame. simpl.
  set (row := default [] (byLine !! N.to_nat ln)) in *.
  assert (Hsel : List.filter (fun m => generatedColumn m <=? col + k)%N row
                 = List.filter (fun m => generatedColumn m <=? col)%N row).
  { apply filter_ext_in. intros m Hin.
    destruct (Hgap m Hin) as [Hle|Hgt].
    - transitivity true; [|symmetry]; apply N.leb_le; lia.
    - transitivity false; [|symmetry]; apply N.leb_gt; lia. }
  rewrite Hsel.
  set (sel := List.filter (fun m => generatedColumn m <=? col)%N row).
  set (mx := fold_left _ sel 0%N).
  rewrite map_map. apply map_ext_in. intros m Hin.
  apply filter_In in Hin as [Hin Hmx]. apply N.eqb_eq in Hmx.
  apply filter_In in Hin as [_ Hle]. apply N.leb_le in Hle.
  unfold shift_column. simpl. f_equal. lia.
Qed.

Lemma Blame_between_entries_witness :
  Blame (eachMappingByLine [mkMappingItem "A" 0 5 0 0 "n"; mkMappingItem "A" 0 9 4 0 "m"])
    {| line := 0; column := 5 + 3 |}
  = [mkMappedPosition "A" 0 3 "n"].
Proof.
  rewrite (Blame_between_entries _ 0 5 3); [reflexivity|].
  intros m [<-|[<-|[]]]; simpl; lia.
Defined.

(** *** How an operation changes the store *)

Lemma view_sourceMap_grow (s s' : DataStore) d v :
  (forall k x, store s !! k = Some x -> is_Some (store s' !! k)) ->
  objects s' !! d = objects s !! d ->
  view_sourceMap s d = Ok v -> view_sourceMap s' d = Ok v.
Proof.
  intros Hsub Hobj. unfold view_sourceMap. rewrite Hobj.
  destruct (objects s !! d) as [r|]; [|done].
  destruct (metadata r) as [md|]; [|done].
  destruct (sourceMap md) as [sm|]; [done|].
  by apply sourceMap_of_mono.
Qed.

Lemma view_sourceMap_record (s : DataStore) d v :
  view_sourceMap s d = Ok v -> is_Some (objects s !! d).
Proof. unfold view_sourceMap. destruct (objects s !! d); [eauto|done]. Qed.

Lemma same_payload_at_dom (o o' : gmap loc Data) :
  (forall d, same_payload_at (o !! d) (o' !! d)) -> dom o' = dom o.
Proof.
  intros Hp. apply set_eq. intros d. rewrite !elem_of_dom.
  specialize (Hp d). destruct (o !! d), (o' !! d); simpl in Hp; try done;
    split; intros [x Hx]; eauto; done.
Qed.

Section EvolutionFacts.
Context `{UriLibrary}.

(** What an operation does to a store that satisfies the invariant: it fills
    lazy slots, or moves the counter, or writes a record under the next key,
    or binds the next key to a stored record, or requests cancellation. *)
Lemma perform_cases op s :
  UriLaws BaseUri -> store_ok s ->
  same_views s (perform op s)
  \/ perform op s = set_uid (uid s + 1) s
  \/ (isCancellationRequested s = false
      /\ exists description dat artifact idn factory,
           perform op s = written description dat artifact idn factory s)
  \/ (exists description k0 d,
        store s !! k0 = Some d
        /\ perform op s
           = set_store <[key_of (uid s) description := d]> (set_uid (uid s + 1) s))
  \/ perform op s = cancel s.
Proof.
  intros Hlaws Hok. destruct op; simpl.
  - rewrite WriteData_run by done.
    destruct (isCancellationRequested s) eqn:Hc; simpl; [auto|].
    right; right; left. split; [done|]. by eexists _, _, _, _, _.
  - unfold WriteDataWithSourceMap. simpl. rewrite WriteData_run by done.
    destruct (isCancellationRequested s) eqn:Hc; simpl; [auto|].
    right; right; left. split; [done|]. by eexists _, _, _, _, _.
  - unfold Forward. simpl. rewrite forward_closure_run by done.
    destruct (store s !! key input) as [d|] eqn:Hin; simpl; [|auto].
    right; right; right; left. by eexists _, _, _.
  - left. apply keeps_views_sourceMap_Value.
  - left. apply keeps_views_byLine_Value.
  - left. apply keeps_views_inputSourceMap_Value.
  - left. apply keeps_views_DataStore_Blame.
  - auto.
Qed.

(** The keys of a store stay, whatever is done next. *)
Lemma perform_keys_stay op s k x :
  UriLaws BaseUri -> store_ok s ->
  store s !! k = Some x -> store (perform op s) !! k = Some x.
Proof.
  intros Hlaws Hok Hk.
  pose proof (fun d => next_key_fresh s d Hlaws Hok) as Hfresh.
  destruct (perform_cases op s Hlaws Hok)
    as [(_ & -> & _)|[->|[(_ & ? & ? & ? & ? & ? & ->)|[(? & ? & ? & _ & ->)| ->]]]];
    simpl; try done; rewrite lookup_insert_ne; try done; intros <-;
    by rewrite Hfresh in Hk.
Qed.

(** A source map that an access yields is the one every later access
    yields. *)
Lemma perform_view_sourceMap op s d v :
  UriLaws BaseUri -> store_ok s ->
  view_sourceMap s d = Ok v -> view_sourceMap (perform op s) d = Ok v.
Proof.
  intros Hlaws Hok Hv.
  assert (Hkeys : forall k x, store s !! k = Some x ->
                              is_Some (store (perform op s) !! k)).
  { intros k x Hk. rewrite (perform_keys_stay op s k x) by done. eauto. }
  destruct (perform_cases op s Hlaws Hok)
    as [(_ & _ & _ & Hm & _)|[E|[(_ & ? & ? & ? & ? & ? & E)|[(? & ? & ? & _ & E)|E]]]].
  - by rewrite Hm.
  - by rewrite E.
  - apply (view_sourceMap_grow s); [done| |done]. rewrite E. simpl.
    apply lookup_insert_ne. intros <-.
    destruct (view_sourceMap_record s _ v Hv) as [r Hr].
    assert (Hd : objects s !! fresh (dom (objects s)) = None)
      by apply not_elem_of_dom, is_fresh.
    congruence.
  - apply (view_sourceMap_grow s); [done| |done]. by rewrite E.
  - by rewrite E.
Qed.

Lemma perform_all_view_sourceMap ops s d v :
  UriLaws BaseUri -> store_ok s ->
  view_sourceMap s d = Ok v -> view_sourceMap (perform_all ops s) d = Ok v.
Proof.
  intros Hlaws. revert s. induction ops as [|op ops IH]; intros s Hok Hv; [done|].
  simpl. apply IH; [by apply perform_store_ok|by apply perform_view_sourceMap].
Qed.

(** The same for the results of [DataHandle.Blame]. *)
Lemma perform_all_view_byLine ops s d v :
  UriLaws BaseUri -> store_ok s ->
  view_byLine s d = Ok v -> view_byLine (perform_all ops s) d = Ok v.
Proof.
  intros Hlaws Hok Hv.
  pose proof (perform_all_store_ok ops s Hlaws Hok) as (_ & _ & _ & Hco').
  pose proof Hok as (_ & _ & _ & Hco).
  rewrite Hco in Hv. rewrite Hco'.
  destruct (view_sourceMap s d) as [sm|e] eqn:Hsm; [|done].
  by rewrite (perform_all_view_sourceMap ops s d sm).
Qed.

End EvolutionFacts.

(** *** Views that hold once hold forever *)

(** X3. A source map that validates once validates forever: when an access
    to [sourceMap.Value] yields a map, every later access yields the same
    map, whatever the users of the store have done in between - cached or
    not, since keys are never removed; and so do the results of [Blame]. *)
Theorem sourceMap_view_is_stable `{UriLibrary} (ops : list Operation)
    (h : DataHandle) (position : Position) (s : DataStore) :
  UriLaws BaseUri -> store_ok s ->
  (forall v, fst (sourceMap_Value h s) = Ok v ->
             fst (sourceMap_Value h (perform_all ops s)) = Ok v)
  /\ (forall blamed, fst (handle_Blame h position s) = Ok blamed ->
        fst (handle_Blame h position (perform_all ops s)) = Ok blamed).
Proof.
  intros Hlaws Hok. split.
  - intros v.
    destruct (sourceMap_Value_run h s) as (s1 & -> & _).
    destruct (sourceMap_Value_run h (perform_all ops s)) as (s2 & -> & _).
    simpl. by apply perform_all_view_sourceMap.
  - intros blamed.
    destruct (handle_Blame_run h position s) as (s1 & -> & _).
    destruct (handle_Blame_run h position (perform_all ops s)) as (s2 & -> & _).
    simpl. destruct (view_byLine s (read h)) as [idx|e] eqn:Hidx; [|done].
    by rewrite (perform_all_view_byLine ops s (read h) idx).
Qed.

Lemma sourceMap_view_is_stable_witness :
  let s := @perform example_uris (op_WriteData "a" "foo" "text" ["x"] None)
             empty_DataStore in
  let h := {| key := @key_of example_uris 0 "a"; read := 0%nat |} in
  fst (sourceMap_Value h
         (@perform_all example_uris [op_WriteData "b" "bar" "text" [] None; op_cancel] s))
  = Ok empty_source_map.
Proof.
  intros s h.
  destruct (@sourceMap_view_is_stable example_uris
              [op_WriteData "b" "bar" "text" [] None; op_cancel] h
              {| line := 0; column := 0 |} s) as [Hsm _].
  - exact example_uris_laws.
  - apply perform_store_ok; [exact example_uris_laws|apply store_ok_empty].
  - apply Hsm. reflexivity.
Defined.

(** X4. An artifact written without a source map factory blames nothing:
    its source map is the empty one, and [Blame] on its handle returns no
    position, at every position and whatever is done to the store later. *)
Theorem plain_artifact_blames_nothing `{UriLibrary}
    (description dat artifact : string) (idn : list string) (s : DataStore)
    (ops : list Operation) (position : Position) :
  UriLaws BaseUri -> store_ok s -> isCancellationRequested s = false ->
  exists h s1,
    WriteData description dat artifact idn None s = (Ok h, s1)
    /\ fst (sourceMap_Value h (perform_all ops s1)) = Ok empty_source_map
    /\ fst (handle_Blame h position (perform_all ops s1)) = Ok [].
Proof.
  intros Hlaws Hok Hc. rewrite WriteData_run by done. rewrite Hc.
  eexists _, _. split; [reflexivity|].
  set (s1 := written description dat artifact idn None s).
  set (h := {| key := key_of (uid s) description; read := fresh (dom (objects s)) |}).
  assert (Hok1 : store_ok s1).
  { apply store_ok_written; [done|]. by apply next_key_fresh. }
  assert (Hsm : view_sourceMap s1 (read h) = Ok empty_source_map).
  { unfold view_sourceMap, s1, written. simpl. by rewrite lookup_insert_eq. }
  assert (Hidx : view_byLine s1 (read h) = Ok []).
  { destruct Hok1 as (_ & _ & _ & Hco). by rewrite Hco, Hsm. }
  split.
  - destruct (sourceMap_Value_run h (perform_all ops s1)) as (s2 & -> & _).
    simpl. by apply perform_all_view_sourceMap.
  - destruct (handle_Blame_run h position (perform_all ops s1)) as (s2 & -> & _).
    simpl. by rewrite (perform_all_view_byLine ops s1 (read h) []).
Qed.

Lemma plain_artifact_blames_nothing_witness :
  exists h s1,
    @WriteData example_uris "a" "foo" "text" ["x"] None empty_DataStore = (Ok h, s1)
    /\ fst (handle_Blame h {| line := 3; column := 7 |}
              (@perform_all example_uris [op_cancel] s1)) = Ok [].
Proof.
  destruct (@plain_artifact_blames_nothing example_uris "a" "foo" "text" ["x"]
              empty_DataStore [op_cancel] {| line := 3; column := 7 |})
    as (h & s1 & Hw & _ & Hb).
  - exact example_uris_laws.
  - exact store_ok_empty.
  - reflexivity.
  - exists h, s1. split; [exact Hw|exact Hb].
Defined.

(** *** Keys and descriptions *)

(** X5. Descriptions need not be unique: two writes under the same
    description both succeed (as long as cancellation has not been
    requested), under two different keys and in two different records; each
    handle reads its own content, and both decode to the description. *)
Theorem same_description_twice `{UriLibrary}
    (description dat1 dat2 artifact1 artifact2 : string) (idn1 idn2 : list string)
    (factory1 factory2 : option (DataHandle -> RawSourceMap)) (s : DataStore) :
  UriLaws BaseUri -> store_ok s -> isCancellationRequested s = false ->
  exists h1 s1 h2 s2,
    WriteData description dat1 artifact1 idn1 factory1 s = (Ok h1, s1)
    /\ WriteData description dat2 artifact2 idn2 factory2 s1 = (Ok h2, s2)
    /\ key h1 <> key h2
    /\ read h1 <> read h2
    /\ Read (key h1) s2 = (Ok h1, s2)
    /\ Read (key h2) s2 = (Ok h2, s2)
    /\ fst (ReadData h1 s2) = Ok dat1
    /\ fst (ReadData h2 s2) = Ok dat2
    /\ Description h1 = Ok description
    /\ Description h2 = Ok description.
Proof.
  intros Hlaws Hok Hc.
  pose proof (next_key_fresh s description Hlaws Hok) as Hfresh.
  set (s1 := written description dat1 artifact1 idn1 factory1 s).
  assert (Hok1 : store_ok s1) by by apply store_ok_written.
  assert (Hc1 : isCancellationRequested s1 = false) by done.
  pose proof (next_key_fresh s1 description Hlaws Hok1) as Hfresh1.
  rewrite WriteData_run by done. rewrite Hc.
  eexists _, s1, _, _. split; [reflexivity|].
  rewrite WriteData_run by done. rewrite Hc1.
  split; [reflexivity|]. simpl.
  assert (Hkeys : key_of (uid s) description <> key_of (uid s + 1) description).
  { intros E. apply key_of_inj in E as [E _]; [lia|done]. }
  assert (Hlocs : fresh (dom (objects s)) <> fresh (dom (objects s1))).
  { intros E. pose proof (is_fresh (dom (objects s1))) as Hnew.
    rewrite <- E in Hnew. apply Hnew. unfold s1, written. simpl.
    rewrite dom_insert. set_solver. }
  split; [done|]. split; [done|].
  destruct Hlaws as [Hres Hrel].
  unfold Read, ReadData, handle_record, bind, ret, written. simpl.
  rewrite !(Hres _ : ResolveUri BaseUri (key_of _ _) = key_of _ _).
  rewrite lookup_insert_ne, !lookup_insert_eq by done.
  rewrite lookup_insert_ne, lookup_insert_eq by done.
  do 4 (split; [done|]).
  split; apply Description_key_of; by split.
Qed.

Lemma same_description_twice_witness :
  exists h1 s1 h2 s2,
    @WriteData example_uris "report" "one" "text" [] None empty_DataStore = (Ok h1, s1)
    /\ @WriteData example_uris "report" "two" "text" [] None s1 = (Ok h2, s2)
    /\ key h1 <> key h2
    /\ fst (ReadData h1 s2) = Ok "one"
    /\ fst (ReadData h2 s2) = Ok "two".
Proof.
  destruct (@same_description_twice example_uris "report" "one" "two" "text" "text"
              [] [] None None empty_DataStore)
    as (h1 & s1 & h2 & s2 & Hw1 & Hw2 & Hk & _ & _ & _ & Hd1 & Hd2 & _).
  - exact example_uris_laws.
  - exact store_ok_empty.
  - reflexivity.
  - exists h1, s1, h2, s2. by repeat split.
Defined.

(** *** The sink *)



(** X7. The artifact type of a write through the sink: a type that is
    absent or the empty string is replaced by the default type of the sink,
    any other type is kept. *)
Theorem sink_write_defaults_artifact `{UriLibrary}
    (defaultArtifact description dat : string) (artifact : option string)
    (idn : list string) (factory : DataHandle -> RawSourceMap) (s : DataStore) :
  UriLaws BaseUri -> store_ok s -> isCancellationRequested s = false ->
  exists h s',
    WriteDataWithSourceMap (getDataSink defaultArtifact) description dat artifact
      idn factory s = (Ok h, s')
    /\ (artifact = None \/ artifact = Some EmptyString ->
        fst (handle_artifactType h s') = Ok (Some defaultArtifact))
    /\ (forall t, artifact = Some t -> t <> EmptyString ->
        fst (handle_artifactType h s') = Ok (Some t)).
Proof.
  intros Hlaws Hok Hc. unfold WriteDataWithSourceMap. simpl.
  rewrite WriteData_run by done. rewrite Hc.
  eexists _, _. split; [reflexivity|].
  unfold handle_artifactType, handle_record, bind, ret, written. simpl.
  rewrite lookup_insert_eq. simpl. split.
  - by intros [->| ->].
  - intros t -> Ht. by destruct t.
Qed.

Lemma sink_write_defaults_artifact_witness :
  exists h s',
    WriteDataWithSourceMap (@getDataSink example_uris "text") "a" "foo"
      (Some EmptyString) [] (fun _ => empty_source_map) empty_DataStore = (Ok h, s')
    /\ fst (handle_artifactType h s') = Ok (Some "text").
Proof.
  destruct (@sink_write_defaults_artifact example_uris "text" "a" "foo"
              (Some EmptyString) [] (fun _ => empty_source_map) empty_DataStore)
    as (h & s' & Hw & Hdef & _).
  - exact example_uris_laws.
  - exact store_ok_empty.
  - reflexivity.
  - exists h, s'. split; [exact Hw|]. apply Hdef. by right.
Defined.

(** *** After cancellation *)

Section CancelledFacts.
Context `{UriLibrary}.

Lemma perform_cancelled op s :
  UriLaws BaseUri -> store_ok s -> isCancellationRequested s = true ->
  isCancellationRequested (perform op s) = true
  /\ dom (objects (perform op s)) = dom (objects s)
  /\ forall d, same_payload_at (objects s !! d) (objects (perform op s) !! d).
Proof.
  intros Hlaws Hok Hc.
  destruct (perform_cases op s Hlaws Hok)
    as [(Hc' & _ & _ & _ & _ & Hp)|[E|[(Hc' & _)|[(? & ? & ? & _ & E)|E]]]].
  - split; [congruence|]. split; [by apply same_payload_at_dom|done].
  - rewrite E. split; [done|]. split; [done|]. intros d. apply same_payload_at_refl.
  - congruence.
  - rewrite E. split; [done|]. split; [done|]. intros d. apply same_payload_at_refl.
  - rewrite E. split; [done|]. split; [done|]. intros d. apply same_payload_at_refl.
Qed.

End CancelledFacts.

(** X8. Cancellation is final for the records: once cancellation has been
    requested, it stays requested, and nothing the users of the store do
    adds a record, removes one, or changes the content, identity or artifact
    type of one. *)
Theorem cancelled_store_gets_no_record `{UriLibrary} (ops : list Operation)
    (s : DataStore) :
  UriLaws BaseUri -> store_ok s -> isCancellationRequested s = true ->
  isCancellationRequested (perform_all ops s) = true
  /\ dom (objects (perform_all ops s)) = dom (objects s)
  /\ forall d, same_payload_at (objects s !! d) (objects (perform_all ops s) !! d).
Proof.
  intros Hlaws. revert s. induction ops as [|op ops IH]; intros s Hok Hc.
  - split; [done|]. split; [done|]. intros d. apply same_payload_at_refl.
  - simpl.
    destruct (perform_cancelled op s Hlaws Hok Hc) as (Hc1 & Hd1 & Hp1).
    destruct (IH (perform op s)) as (Hc2 & Hd2 & Hp2);
      [by apply perform_store_ok|done|].
    split; [done|]. split; [congruence|].
    intros d. eapply same_payload_at_trans; [apply Hp1|apply Hp2].
Qed.

Lemma cancelled_store_gets_no_record_witness :
  let s := cancel (@perform example_uris (op_WriteData "a" "foo" "text" ["x"] None)
                     empty_DataStore) in
  dom (objects (@perform_all example_uris
                  [op_WriteData "b" "bar" "text" [] None;
                   op_sink_forward "text" "c" {| key := @key_of example_uris 0 "a";
                                                 read := 0%nat |}] s))
  = dom (objects s).
Proof.
  intros s.
  destruct (@cancelled_store_gets_no_record example_uris
              [op_WriteData "b" "bar" "text" [] None;
               op_sink_forward "text" "c" {| key := @key_of example_uris 0 "a";
                                             read := 0%nat |}] s)
    as (_ & Hdom & _).
  - exact example_uris_laws.
  - apply store_ok_cancel, perform_store_ok;
      [exact example_uris_laws|apply store_ok_empty].
  - reflexivity.
  - exact Hdom.
Defined.

(** *** Reading keys of the store *)

(** X9. [Blame] on a handle follows the source map of the handle: it
    yields the blame computed on the per-line index of the map that
    [sourceMap.Value] yields, and when that access fails (a dangling
    reference, say) it fails with the same error. *)
Theorem handle_Blame_follows_the_map `{UriLibrary} (h : DataHandle)
    (position : Position) (s : DataStore) :
  store_ok s ->
  fst (handle_Blame h position s)
  = result_map (fun sm => Blame (eachMappingByLine (eachMapping sm)) position)
      (fst (sourceMap_Value h s)).
Proof.
  intros (_ & _ & _ & Hco).
  destruct (handle_Blame_run h position s) as (s1 & -> & _).
  destruct (sourceMap_Value_run h s) as (s2 & -> & _).
  cbn [fst]. rewrite Hco. by destruct (view_sourceMap s (read h)).
Qed.

Lemma handle_Blame_follows_the_map_witness :
  let factory := fun _ : DataHandle =>
    {| sources := ["mem:///9?nowhere"]; file := "mem:///0?a"; mappings := [] |} in
  let s := @perform example_uris (op_WriteData "a" "foo" "text" ["x"] (Some factory))
             empty_DataStore in
  fst (handle_Blame {| key := "mem:///0?a"; read := 0%nat |} {| line := 0; column := 0 |} s)
  = Throw (DanglingMappingReference "mem:///0?a" "mem:///9?nowhere").
Proof.
  intros factory s.
  rewrite (@handle_Blame_follows_the_map example_uris).
  - reflexivity.
  - apply perform_store_ok; [exact example_uris_laws|apply store_ok_empty].
Defined.

(** X10. Every key of the store reads back: for a key bound in the store,
    [Read] - which resolves its argument against the root once more - and
    [ReadStrictSync] return the same handle, the key with the record it is
    bound to, and leave the store as it is; and the key carries a counter
    value that the counter has passed and decodes to the description it was
    made from. *)
Theorem stored_keys_read_back `{UriLibrary} (k : string) (d : loc) (s : DataStore) :
  UriLaws BaseUri -> store_ok s -> store s !! k = Some d ->
  Read k s = (Ok {| key := k; read := d |}, s)
  /\ ReadStrictSync k s = (Ok {| key := k; read := d |}, s)
  /\ exists n description,
       k = ResolveUri BaseUri (pretty n +:+ "?" +:+ encodeURIComponent description)
       /\ (n < uid s)%N
       /\ Description {| key := k; read := d |} = Ok description.
Proof.
  intros Hlaws Hok Hk.
  pose proof Hok as (Hkeys & _).
  destruct (Hkeys k d Hk) as (n & description & -> & Hn).
  assert (Hres : ResolveUri BaseUri (key_of n description) = key_of n description)
    by (destruct Hlaws as [Hres _]; apply Hres).
  split; [|split].
  - unfold Read. by rewrite Hres, Hk.
  - unfold ReadStrictSync. by rewrite Hk.
  - exists n, description. split; [done|]. split; [done|].
    by apply Description_key_of.
Qed.

Lemma stored_keys_read_back_witness :
  let s := @perform_all example_uris
             [op_WriteData "a" "foo" "text" ["x"] None;
              op_sink_forward "text" "b c" {| key := "mem:///0?a"; read := 0%nat |}]
             empty_DataStore in
  @Read example_uris "mem:///1?b%20c" s
  = (Ok {| key := "mem:///1?b%20c"; read := 0%nat |}, s)
  /\ Description {| key := "mem:///1?b%20c"; read := 0%nat |} = Ok "b c".
Proof.
  intros s.
  destruct (@stored_keys_read_back example_uris "mem:///1?b%20c" 0%nat s)
    as (Hread & _ & n & description & _ & _ & Hdescr).
  - exact example_uris_laws.
  - apply perform_all_store_ok; [exact example_uris_laws|apply store_ok_empty].
  - reflexivity.
  - split; [exact Hread|]. reflexivity.
Defined.

(** X22. The input source map needs the source map: when the input source
    map of a handle has not been computed yet and the access to
    [sourceMap.Value] of the handle fails (a dangling reference, say), the
    access to [inputSourceMap.Value] fails with the same error, before any
    blame is looked up. *)
Theorem inputSourceMap_fails_with_the_map `{UriLibrary} (fuel : nat)
    (h : DataHandle) (s : DataStore) (r : Data) (md : Metadata) (e : Error) :
  store_ok s ->
  objects s !! read h = Some r -> metadata r = Some md ->
  inputSourceMap md = None ->
  fst (sourceMap_Value h s) = Throw e ->
  fst (inputSourceMap_Value fuel h s) = Throw e.
Proof.
  intros (_ & _ & Hcap & _) Hr Hmd Hslot Hsm.
  destruct (Hcap _ _ _ Hr Hmd) as [Hkey _].
  unfold inputSourceMap_Value, Lazy_Value, handle_metadata, handle_record.
  unfold bind at 1. unfold bind at 1. rewrite Hr. unfold ret at 1.
  rewrite Hmd. unfold ret at 1. rewrite Hslot.
  unfold bind at 1. unfold CreateInputSourceMapFor. unfold bind at 1.
  rewrite ReadStrictSync_run, Hkey. unfold bind at 1.
  destruct (sourceMap_Value_run h s) as (s1 & Hrun & _).
  rewrite Hrun in Hsm. cbn [fst] in Hsm.
  destruct (sourceMap_Value_run {| key := captured_uri md; read := read h |} s)
    as (s2 & -> & _).
  cbn [read]. by rewrite Hsm.
Qed.

Lemma inputSourceMap_fails_with_the_map_witness :
  let factory := fun _ : DataHandle =>
    {| sources := ["mem:///9?nowhere"]; file := "mem:///0?a"; mappings := [] |} in
  let s := @perform example_uris (op_WriteData "a" "foo" "text" ["x"] (Some factory))
             empty_DataStore in
  let h := {| key := "mem:///0?a"; read := 0%nat |} in
  fst (inputSourceMap_Value 0 h s)
  = Throw (DanglingMappingReference "mem:///0?a" "mem:///9?nowhere").
Proof.
  intros factory s h.
  apply (@inputSourceMap_fails_with_the_map example_uris 0 h s
           {| data := "foo";
              metadata := Some
                {| artifactType := "text"; inputSourceMap := None;
                   sourceMap := None; sourceMapEachMappingByLine := None;
                   sourceMapFactory := Some factory; captured_uri := key h;
                   captured_result := h |};
              identity := ["x"] |}
           {| artifactType := "text"; inputSourceMap := None;
              sourceMap := None; sourceMapEachMappingByLine := None;
              sourceMapFactory := Some factory; captured_uri := key h;
              captured_result := h |}).
  - apply perform_store_ok; [exact example_uris_laws|apply store_ok_empty].
  - reflexivity.
  - reflexivity.
  - reflexivity.
  - reflexivity.
Defined.

(** *** Quick data sources *)

Lemma head_filter_first {A} (p : A -> bool) (l : list A) (x : A) :
  head (List.filter p l) = Some x
  <-> exists before after,
        l = before ++ x :: after /\ p x = true
        /\ Forall (fun y => p y = false) before.
Proof.
  induction l as [|y l IH]; simpl.
  - split; [done|]. intros (before & after & E & _). by destruct before.
  - destruct (p y) eqn:Hy; simpl.
    + split.
      * intros [= ->]. exists [], l. by repeat split.
      * intros (before & after & E & Hx & Hall).
        destruct before as [|z before]; simpl in E.
        -- by injection E as ->.
        -- injection E as -> _. apply Forall_cons in Hall as [Hz _]. congruence.
    + rewrite IH. split.
      * intros (before & after & -> & Hx & Hall).
        exists (y :: before), after. split; [done|]. split; [done|].
        by apply Forall_cons.
      * intros (before & after & E & Hx & Hall).
        destruct before as [|z before]; simpl in E.
        -- injection E as -> _. congruence.
        -- injection E as -> ->. apply Forall_cons in Hall as [_ Hall].
           by exists before, after.
Qed.

(** X11. [Read] of a quick data source that is not skipped returns the first
    of its handles with the requested key: handles later in the list with
    the same key are never returned. *)
Theorem QuickDataSource_Read_finds_first (q : QuickDataSource) (k : string)
    (h : DataHandle) :
  default false (skip q) = false ->
  QuickDataSource_Read q k = Some h
  <-> exists before after,
        handles q = before ++ h :: after /\ key h = k
        /\ Forall (fun x => key x <> k) before.
Proof.
  intros Hskip. unfold QuickDataSource_Read. rewrite Hskip.
  rewrite head_filter_first. split.
  - intros (before & after & E & Hk & Hall). exists before, after.
    split; [done|]. split; [by apply String.eqb_eq|].
    eapply Forall_impl; [exact Hall|]. intros x Hx. by apply String.eqb_neq.
  - intros (before & after & E & Hk & Hall). exists before, after.
    split; [done|]. split; [by apply String.eqb_eq|].
    eapply Forall_impl; [exact Hall|]. intros x Hx. by apply String.eqb_neq.
Qed.

Lemma QuickDataSource_Read_finds_first_witness :
  QuickDataSource_Read
    {| handles := [mkDataHandle "a" 0; mkDataHandle "b" 1; mkDataHandle "b" 2];
       skip := None |} "b"
  = Some (mkDataHandle "b" 1).
Proof.
  apply QuickDataSource_Read_finds_first; [reflexivity|].
  exists [mkDataHandle "a" 0], [mkDataHandle "b" 2].
  split; [reflexivity|]. split; [reflexivity|].
  apply Forall_cons. split; [discriminate|apply Forall_nil_2].
Defined.

(** X12. [Enum] and [ReadStrict] of a quick data source agree: every key
    that is enumerated reads strictly, to a handle with that key, and every
    other key fails with "Could not read" for that key; a skipped source
    enumerates nothing and reads nothing. *)
Theorem QuickDataSource_Enum_ReadStrict (q : QuickDataSource) (k : string) :
  (In k (QuickDataSource_Enum q)
   <-> exists h, QuickDataSource_ReadStrict q k = Ok h /\ key h = k)
  /\ (~ In k (QuickDataSource_Enum q)
      <-> QuickDataSource_ReadStrict q k = Throw (CouldNotRead k))
  /\ (skip q = Some true -> QuickDataSource_Enum q = []).
Proof.
  unfold QuickDataSource_ReadStrict, ReadStrict, QuickDataSource_Enum,
    QuickDataSource_Read.
  destruct (default false (skip q)) eqn:Hskip.
  { split; [|split].
    - split; [done|]. by intros (h & ? & _).
    - split; [done|]. by intros _ [].
    - done. }
  assert (Hfound : In k (map key (handles q))
            <-> exists h, head (List.filter (fun x => String.eqb (key x) k) (handles q))
                          = Some h).
  { split.
    - intros (h & Hk & Hin)%in_map_iff.
      destruct (List.filter _ (handles q)) as [|h' l] eqn:E; [|by eexists].
      assert (Hh : In h (List.filter (fun x => String.eqb (key x) k) (handles q))).
      { apply filter_In. split; [done|]. by apply String.eqb_eq. }
      by rewrite E in Hh.
    - intros (h & Hh). apply head_filter_first in Hh
        as (before & after & E & Hk & _).
      apply in_map_iff. exists h. split; [by apply String.eqb_eq|].
      rewrite E. apply in_app_iff. right. by left. }
  split; [|split].
  - rewrite Hfound. split.
    + intros (h & Hh). rewrite Hh. exists h. split; [done|].
      apply head_filter_first in Hh as (_ & _ & _ & Hk & _).
      by apply String.eqb_eq.
    + intros (h & Hh & _). destruct (head _) as [h'|]; [by eexists|done].
  - rewrite Hfound. split.
    + intros Hnone. destruct (head _) as [h'|]; [|done].
      exfalso. apply Hnone. by eexists.
    + intros Hthrow (h & Hh). by rewrite Hh in Hthrow.
  - intros E. by rewrite E in Hskip.
Qed.

(** *** The original path of a handle *)

Lemma lastIndexOf_spec (c : ascii) (s : string) :
  (occurs c s = false /\ lastIndexOf c s = (-1)%Z)
  \/ (exists p q, s = p +:+ String c q /\ occurs c q = false
        /\ lastIndexOf c s = Z.of_nat (String.length p)).
Proof.
  induction s as [|a s IH]; simpl; [by left|].
  destruct IH as [[Hno ->]|(p & q & -> & Hq & ->)].
  - simpl. destruct (Ascii.eqb_spec a c) as [->|Hne].
    + right. exists EmptyString, s. by repeat split.
    + left. by rewrite Hno.
  - right. exists (String a p), q. split; [done|]. split; [done|].
    destruct (0 <=? Z.of_nat (String.length p))%Z eqn:E.
    + simpl. lia.
    + apply Z.leb_gt in E. lia.
Qed.

Lemma substring_prefix (p x : string) :
  String.substring 0 (String.length p) (p +:+ x) = p.
Proof.
  induction p as [|a p IH]; simpl.
  - by destruct x.
  - by rewrite IH.
Qed.

Lemma js_substring_prefix (p x : string) :
  js_substring (p +:+ x) 0 (Z.of_nat (String.length p)) = p.
Proof.
  unfold js_substring. rewrite length_app_s.
  replace (Z.min (Z.max 0 0) _) with 0%Z by lia.
  replace (Z.min (Z.max (Z.of_nat (String.length p)) 0) _)
    with (Z.of_nat (String.length p)) by lia.
  replace (Z.min 0 (Z.of_nat (String.length p))) with 0%Z by lia.
  replace (Z.max 0 (Z.of_nat (String.length p)) - 0)%Z
    with (Z.of_nat (String.length p)) by lia.
  rewrite Nat2Z.id. apply substring_prefix.
Qed.

Lemma js_substring_nothing (s : string) : js_substring s 0 (-1) = EmptyString.
Proof.
  unfold js_substring.
  replace (Z.min (Z.max 0 0) _) with 0%Z by lia.
  replace (Z.min (Z.max (-1) 0) _) with 0%Z by lia.
  simpl. by destruct s.
Qed.

(** X13. [originalDirectory] cuts the first identity at its last slash: for
    an identity [dir/name] with no slash in [name] it is [dir]; for an
    identity without a slash it is the empty string; and for a record with
    an empty identity it throws, where [originalFullPath] is [undefined]. *)
Theorem originalDirectory_cuts_at_last_slash (h : DataHandle) (s : DataStore)
    (r : Data) :
  objects s !! read h = Some r ->
  match identity r with
  | [] =>
      originalDirectory h s = (Throw TypeError, s)
      /\ originalFullPath h s = (Ok None, s)
  | id :: _ =>
      originalFullPath h s = (Ok (Some id), s)
      /\ exists dir name,
           originalDirectory h s = (Ok dir, s)
           /\ occurs "/" name = false
           /\ ((id = dir +:+ "/" +:+ name)
               \/ (occurs "/" id = false /\ dir = EmptyString /\ id = name))
  end.
Proof.
  intros Hr.
  unfold originalDirectory, originalFullPath, handle_identity, handle_record,
    bind, ret, throw. rewrite Hr.
  destruct (identity r) as [|id rest]; [done|]. split; [done|]. simpl.
  destruct (lastIndexOf_spec "/" id) as [[Hno ->]|(p & q & -> & Hq & ->)].
  - exists EmptyString, id. rewrite js_substring_nothing. split; [done|].
    split; [done|]. right. by repeat split.
  - exists p, q. rewrite js_substring_prefix. split; [done|].
    split; [done|]. by left.
Qed.

Lemma originalDirectory_cuts_at_last_slash_witness :
  let s := @perform example_uris
             (op_WriteData "a" "foo" "text" ["file:///tmp/a/readme.md"] None)
             empty_DataStore in
  let h := {| key := @key_of example_uris 0 "a"; read := 0%nat |} in
  exists dir name,
    originalDirectory h s = (Ok dir, s)
    /\ occurs "/" name = false
    /\ (("file:///tmp/a/readme.md" = dir +:+ "/" +:+ name)
        \/ (occurs "/" "file:///tmp/a/readme.md" = false /\ dir = EmptyString
            /\ "file:///tmp/a/readme.md" = name)).
Proof.
  intros s h.
  pose proof (originalDirectory_cuts_at_last_slash h s
                {| data := "foo";
                   metadata := Some
                     {| artifactType := "text"; inputSourceMap := None;
                        sourceMap := None; sourceMapEachMappingByLine := None;
                        sourceMapFactory := None; captured_uri := key h;
                        captured_result := h |};
                   identity := ["file:///tmp/a/readme.md"] |} eq_refl) as [_ Hdir].
  exact Hdir.
Defined.

(** *** Dumping a quick data source *)

Lemma ReadData_run (h : DataHandle) (s : DataStore) :
  ReadData h s
  = (match objects s !! read h with
     | Some r => Ok (data r)
     | None => Throw TypeError
     end, s).
Proof.
  unfold ReadData, handle_record, bind, ret. by destruct (objects s !! read h).
Qed.

Lemma ReadData_same_views (h : DataHandle) (s s' : DataStore) :
  same_views s s' -> fst (ReadData h s') = fst (ReadData h s).
Proof.
  intros (_ & _ & _ & _ & _ & Hp). rewrite !ReadData_run. simpl.
  specialize (Hp (read h)).
  destruct (objects s !! read h) as [r|], (objects s' !! read h) as [r'|];
    simpl in Hp; try done.
  by destruct Hp as (-> & _).
Qed.

Section DumpFacts.
Context `{UriLibrary}.
Variable EnsureIsFolderUri : string -> string.
Variable stringify : RawSourceMap -> string.
Variable fuel : nat.

(** One turn of the loop: the views of the store stay as they are, files
    are only added, and a turn that succeeds has written the three files of
    its key, the first of them with the content of the handle read. *)
Lemma Dump_key_run q targetDirUri k out s :
  exists r new s',
    Dump_key stringify fuel q targetDirUri k out s = (r, out ++ new, s')
    /\ same_views s s'
    /\ (r = Ok tt ->
        map fst new = dumped_names (targetFileUri_of targetDirUri k)
        /\ exists h d, QuickDataSource_Read q k = Some h
                       /\ fst (ReadData h s) = Ok d
                       /\ In (targetFileUri_of targetDirUri k, d) new).
Proof.
  unfold Dump_key, dump_bind, on_store, lift, WriteString,
    QuickDataSource_ReadStrict, ReadStrict.
  destruct (QuickDataSource_Read q k) as [h|] eqn:Hread.
  2:{ exists (Throw (CouldNotRead k)), [], s. rewrite app_nil_r.
      split; [done|]. split; [apply same_views_refl|done]. }
  rewrite ReadData_run.
  destruct (objects s !! read h) as [r|] eqn:Hr.
  2:{ exists (Throw TypeError), [], s. rewrite app_nil_r.
      split; [done|]. split; [apply same_views_refl|done]. }
  set (target := targetFileUri_of targetDirUri k).
  destruct (sourceMap_Value_run h s) as (s1 & -> & Hs1).
  destruct (view_sourceMap s (read h)) as [sm|e].
  2:{ exists (Throw e), [(target, data r)], s1. split; [done|]. by split. }
  pose proof (keeps_views_inputSourceMap_Value fuel h s1) as Hs2.
  destruct (inputSourceMap_Value fuel h s1) as [[ism|e] s2]; simpl in Hs2.
  2:{ exists (Throw e), [(target, data r); (target +:+ ".map", stringify sm)], s2.
      rewrite <- app_assoc. split; [done|].
      split; [by eapply same_views_trans|done]. }
  exists (Ok tt), [(target, data r); (target +:+ ".map", stringify sm);
                   (target +:+ ".input.map", stringify ism)], s2.
  rewrite <- !app_assoc. split; [done|].
  split; [by eapply same_views_trans|]. intros _. split; [done|].
  exists h, (data r). split; [done|]. rewrite ReadData_run, Hr.
  split; [done|]. by left.
Qed.

Lemma Dump_keys_run q targetDirUri keys out s :
  exists r new s',
    Dump_keys stringify fuel q targetDirUri keys out s = (r, out ++ new, s')
    /\ same_views s s'
    /\ (r = Ok tt ->
        map fst new
        = concat (map (fun k => dumped_names (targetFileUri_of targetDirUri k)) keys)
        /\ forall k, In k keys ->
             exists h d, QuickDataSource_Read q k = Some h
                         /\ fst (ReadData h s) = Ok d
                         /\ In (targetFileUri_of targetDirUri k, d) new).
Proof.
  revert out s. induction keys as [|k keys IH]; intros out s; simpl.
  - exists (Ok tt), [], s. rewrite app_nil_r. split; [done|].
    split; [apply same_views_refl|]. intros _. split; [done|]. by intros k [].
  - unfold dump_bind.
    destruct (Dump_key_run q targetDirUri k out s) as (r1 & new1 & s1 & -> & Hs1 & H1).
    destruct r1 as [[]|e].
    2:{ exists (Throw e), new1, s1. split; [done|]. by split. }
    destruct (IH (out ++ new1) s1) as (r2 & new2 & s2 & -> & Hs2 & H2).
    exists r2, (new1 ++ new2), s2. rewrite app_assoc. split; [done|].
    split; [by eapply same_views_trans|]. intros ->.
    destruct (H1 eq_refl) as (Hn1 & h1 & d1 & Hh1 & Hd1 & Hin1).
    destruct (H2 eq_refl) as (Hn2 & Hall2).
    split; [by rewrite map_app, Hn1, Hn2|].
    intros k' [<-|Hin].
    + exists h1, d1. split; [done|]. split; [done|]. apply in_app_iff. by left.
    + destruct (Hall2 k' Hin) as (h & d & Hh & Hd & Hin').
      exists h, d. split; [done|]. split.
      * by rewrite <- (ReadData_same_views h s s1).
      * apply in_app_iff. by right.
Qed.

End DumpFacts.

(** X14. [Dump] of a quick data source only adds files and leaves the store
    as it is, but for the lazy views it computes; and a dump that succeeds
    has written, for each enumerated key in order, the three files of that
    key - the content, the source map and the input source map - with the
    content file holding the text of the handle that [Read] finds for the
    key. *)
Theorem Dump_writes_three_files_per_key `{UriLibrary}
    (EnsureIsFolderUri : string -> string) (stringify : RawSourceMap -> string)
    (fuel : nat) (q : QuickDataSource) (targetDirUri : string)
    (out out' : Files) (s s' : DataStore) (r : result unit) :
  Dump EnsureIsFolderUri stringify fuel q targetDirUri out s = (r, out', s') ->
  let target := targetFileUri_of (EnsureIsFolderUri targetDirUri) in
  same_views s s'
  /\ exists new,
       out' = out ++ new
       /\ (r = Ok tt ->
           map fst new
           = concat (map (fun k => dumped_names (target k)) (QuickDataSource_Enum q))
           /\ forall k, In k (QuickDataSource_Enum q) ->
                exists h d, QuickDataSource_Read q k = Some h
                            /\ fst (ReadData h s) = Ok d
                            /\ In (target k, d) new).
Proof.
  intros Hdump target. unfold Dump in Hdump.
  destruct (Dump_keys_run stringify fuel q (EnsureIsFolderUri targetDirUri)
              (QuickDataSource_Enum q) out s) as (r1 & new & s1 & Hrun & Hs & Hnew).
  rewrite Hrun in Hdump. injection Hdump as -> <- <-.
  split; [done|]. by exists new.
Qed.

Lemma Dump_writes_three_files_per_key_witness :
  let s := @perform example_uris (op_WriteData "a" "foo" "text" ["x"] None)
             empty_DataStore in
  let q := {| handles := [{| key := @key_of example_uris 0 "a"; read := 0%nat |}];
              skip := Some false |} in
  exists out' s',
    @Dump example_uris (fun d => d +:+ "/") file 1 q "out" [] s = (Ok tt, out', s')
    /\ map fst out'
       = ["mem:///mem///0?a"; "mem:///mem///0?a.map"; "mem:///mem///0?a.input.map"].
Proof.
  intros s q.
  destruct (@Dump example_uris (fun d => d +:+ "/") file 1 q "out" [] s)
    as [[r out'] s'] eqn:E.
  destruct (@Dump_writes_three_files_per_key example_uris (fun d => d +:+ "/") file 1
              q "out" [] out' s s' r E) as (_ & new & -> & Hnew).
  assert (Hr : r = Ok tt).
  { apply (f_equal (fun x => fst (fst x))) in E. simpl in E. by rewrite <- E. }
  subst r. exists new, s'. split; [reflexivity|].
  destruct (Hnew eq_refl) as [Hnames _]. rewrite Hnames. reflexivity.
Defined.

(** X15. [Dump] is not atomic: the content file of a key is written before
    the source map of the key is looked at, so when the source map of the
    first handle cannot be had (a dangling reference, say), the dump fails
    with that error and leaves exactly one file behind. *)
Theorem Dump_stops_at_a_failing_map `{UriLibrary}
    (EnsureIsFolderUri : string -> string) (stringify : RawSourceMap -> string)
    (fuel : nat) (q : QuickDataSource) (targetDirUri : string) (s : DataStore)
    (h : DataHandle) (rest : list DataHandle) (r : Data) (e : Error) :
  default false (skip q) = false ->
  handles q = h :: rest ->
  objects s !! read h = Some r ->
  fst (sourceMap_Value h s) = Throw e ->
  exists s',
    Dump EnsureIsFolderUri stringify fuel q targetDirUri [] s
    = (Throw e,
       [(targetFileUri_of (EnsureIsFolderUri targetDirUri) (key h), data r)], s')
    /\ same_views s s'.
Proof.
  intros Hskip Hq Hr Hsm.
  unfold Dump, QuickDataSource_Enum. rewrite Hskip, Hq. simpl.
  unfold dump_bind at 1.
  unfold Dump_key, dump_bind, on_store, lift, WriteString,
    QuickDataSource_ReadStrict, ReadStrict, QuickDataSource_Read.
  rewrite Hskip, Hq. simpl. rewrite String.eqb_refl. simpl.
  rewrite ReadData_run, Hr.
  destruct (sourceMap_Value_run h s) as (s1 & Hrun & Hs1).
  rewrite Hrun in Hsm |- *. simpl in Hsm. rewrite Hsm.
  by exists s1.
Qed.

Lemma Dump_stops_at_a_failing_map_witness :
  let factory := fun _ : DataHandle =>
    {| sources := ["mem:///9?nowhere"]; file := "mem:///0?a"; mappings := [] |} in
  let s := @perform example_uris (op_WriteData "a" "foo" "text" ["x"] (Some factory))
             empty_DataStore in
  let h := {| key := @key_of example_uris 0 "a"; read := 0%nat |} in
  exists s',
    @Dump example_uris (fun d => d +:+ "/") file 1
      {| handles := [h]; skip := None |} "out" [] s
    = (Throw (DanglingMappingReference "mem:///0?a" "mem:///9?nowhere"),
       [("mem:///mem///0?a", "foo")], s').
Proof.
  intros factory s h.
  destruct (@Dump_stops_at_a_failing_map example_uris (fun d => d +:+ "/") file 1
              {| handles := [h]; skip := None |} "out" s h []
              {| data := "foo";
                 metadata := Some
                   {| artifactType := "text"; inputSourceMap := None;
                      sourceMap := None; sourceMapEachMappingByLine := None;
                      sourceMapFactory := Some factory; captured_uri := key h;
                      captured_result := h |};
                 identity := ["x"] |}
              (DanglingMappingReference "mem:///0?a" "mem:///9?nowhere"))
    as (s' & Hdump & _).
  - reflexivity.
  - reflexivity.
  - reflexivity.
  - reflexivity.
  - exists s'. exact Hdump.
Defined.

(** *** The read-through view: its enumeration *)

Lemma outcome_resolved uri w h :
  outcome uri w = Some (Resolved (Some h))
  <-> cache (view w) !! uri = Some (Settled (Resolved (Some h))).
Proof.
  unfold outcome. destruct (cache (view w) !! uri) as [[| | | |o]|]; try done.
  split; congruence.
Qed.

(** The promise of [uri] is replaced by one that is not resolved to a
    handle, and the enumeration stays. *)
Lemma enumerates_set w w' uri p :
  enumerates_resolved w ->
  Enum w' = Enum w ->
  cache (view w') = <[uri := p]> (cache (view w)) ->
  (forall h, p <> Settled (Resolved (Some h))) ->
  (forall h, cache (view w) !! uri <> Some (Settled (Resolved (Some h)))) ->
  enumerates_resolved w'.
Proof.
  intros [Hnd Hiff] He Hc Hp Hold. unfold enumerates_resolved.
  rewrite He, Hc. split; [done|]. intros uri'. rewrite Hiff.
  destruct (decide (uri' = uri)) as [->|Hne].
  - rewrite lookup_insert_eq. split.
    + intros [h Hh]. by destruct (Hold h).
    + intros [h [= Hh]]. by destruct (Hp h).
  - by rewrite lookup_insert_ne.
Qed.

(** The promise of [uri] resolves to a handle and [uri] is pushed. *)
Lemma enumerates_push w w' uri h :
  enumerates_resolved w ->
  Enum w' = Enum w ++ [uri] ->
  cache (view w') = <[uri := Settled (Resolved (Some h))]> (cache (view w)) ->
  (forall h', cache (view w) !! uri <> Some (Settled (Resolved (Some h')))) ->
  enumerates_resolved w'.
Proof.
  intros [Hnd Hiff] He Hc Hold. unfold enumerates_resolved.
  rewrite He, Hc. split.
  - apply NoDup_app. split; [done|]. split; [|apply NoDup_singleton].
    intros x Hx ->%list_elem_of_singleton.
    apply Hiff in Hx as [h' Hh']. by destruct (Hold h').
  - intros uri'. rewrite elem_of_app, list_elem_of_singleton, Hiff.
    destruct (decide (uri' = uri)) as [->|Hne].
    + rewrite lookup_insert_eq. split; [eauto|auto].
    + rewrite lookup_insert_ne by done. split; [|auto].
      intros [Hh|Hh]; [done|by destruct Hne].
Qed.

Section EnumerationFacts.
Context `{UriLibrary}.

Lemma step_enumerates_resolved w effects w' :
  enumerates_resolved w -> step w effects w' -> enumerates_resolved w'.
Proof.
  intros Hinv Hstep. destruct Hstep as [uri w|uri io w w' effects Hres|f w].
  - unfold ReadThrough_Read. destruct (cache (view w) !! uri) as [p|] eqn:E; [done|].
    destruct (Read uri (the_store w)) as [probe s'].
    eapply (enumerates_set w _ uri); [done|done|done|done|].
    intros h. by rewrite E.
  - unfold resume in Hres.
    destruct (cache (view w) !! uri) as [[[h|e]| | |[h|e]|o]|] eqn:E; try done.
    + injection Hres as <- <-.
      eapply (enumerates_push w _ uri h); [done|done|done|].
      intros h'. by rewrite E.
    + injection Hres as <- <-.
      eapply (enumerates_set w _ uri); [done|done|done|done|].
      intros h'. by rewrite E.
    + assert (Hold : forall h, cache (view w) !! uri
                               <> Some (Settled (Resolved (Some h))))
        by (intros h'; by rewrite E).
      destruct io as [dat|].
      * destruct (truthy dat).
        -- injection Hres as Hres.
           destruct (after_fetch_cases uri dat w)
             as [(w1 & Hw & Hc & Hu & _)|(w1 & r & Hw & Hc & Hu)];
             rewrite Hw in Hres; injection Hres as <- <-;
             by eapply (enumerates_set w _ uri).
        -- injection Hres as <- <-. by eapply (enumerates_set w _ uri).
      * injection Hres as <- <-. by eapply (enumerates_set w _ uri).
    + assert (Hold : forall h, cache (view w) !! uri
                               <> Some (Settled (Resolved (Some h))))
        by (intros h'; by rewrite E).
      destruct io as [dat|].
      * injection Hres as Hres.
        destruct (after_fetch_cases uri dat w)
          as [(w1 & Hw & Hc & Hu & _)|(w1 & r & Hw & Hc & Hu)];
          rewrite Hw in Hres; injection Hres as <- <-;
          by eapply (enumerates_set w _ uri).
      * injection Hres as <- <-. by eapply (enumerates_set w _ uri).
    + injection Hres as <- <-.
      eapply (enumerates_push w _ uri h); [done|done|done|].
      intros h'. by rewrite E.
    + injection Hres as <- <-.
      eapply (enumerates_set w _ uri); [done|done|done|done|].
      intros h'. by rewrite E.
  - done.
Qed.

Lemma run_enumerates_resolved w0 effects w :
  enumerates_resolved w0 -> run w0 effects w -> enumerates_resolved w.
Proof.
  intros H0 Hrun. induction Hrun as [w|w1 w2 w3 e1 e2 Hrun IH Hstep]; [done|].
  eapply step_enumerates_resolved; [by apply IH|done].
Qed.

End EnumerationFacts.

(** X16. The enumeration of a read-through view: along any run of a view
    that started empty - reads of any uris, resumed in any order, with any
    answers of the accessor and any other code acting on the store in
    between - [Enum] lists exactly the uris whose read has resolved to a
    handle, each of them once; so [ReadStrict] of an enumerated uri yields a
    handle. *)
Theorem read_through_enumerates_resolved `{UriLibrary} (s0 : DataStore)
    (effects : list Effect) (w : World) :
  run (GetReadThroughScope s0) effects w ->
  NoDup (Enum w)
  /\ (forall uri, uri ∈ Enum w
        <-> exists h, outcome uri w = Some (Resolved (Some h)))
  /\ (forall uri, uri ∈ Enum w
        -> exists h, ReadThrough_ReadStrict uri w = Some (Ok h)).
Proof.
  intros Hrun.
  assert (H0 : enumerates_resolved (GetReadThroughScope s0)).
  { split; [apply NoDup_nil_2|]. intros uri. simpl. rewrite lookup_empty.
    split; [by intros ?%elem_of_nil|by intros [h ?]]. }
  destruct (run_enumerates_resolved _ _ _ H0 Hrun) as [Hnd Hiff].
  split; [done|]. split.
  - intros uri. rewrite Hiff. split; intros [h Hh]; exists h; by apply outcome_resolved.
  - intros uri [h Hh]%Hiff. exists h. apply outcome_resolved in Hh.
    unfold ReadThrough_ReadStrict. by rewrite Hh.
Qed.

Lemma read_through_enumerates_resolved_witness :
  let uri := "file:///tmp/a/readme.md" in
  let w := fst (@Read_to_completion example_uris uri (Content (Some "hello")) Failed
                  (GetReadThroughScope empty_DataStore)) in
  Enum w = [uri]
  /\ exists h, ReadThrough_ReadStrict uri w = Some (Ok h).
Proof.
  intros uri w. split; [reflexivity|].
  destruct (@read_through_enumerates_resolved example_uris empty_DataStore
              (snd (@Read_to_completion example_uris uri (Content (Some "hello")) Failed
                      (GetReadThroughScope empty_DataStore))) w) as (_ & _ & Hstrict).
  - apply Read_to_completion_run.
  - apply Hstrict. apply list_elem_of_singleton. reflexivity.
Defined.

(** *** The read-through view: the course of a read *)


Section ReadCourse.
Context `{UriLibrary}.

(** From the fetched data to the call of [WriteData], or to [null]. *)
Lemma after_fetch_shape uri fetched w :
  after_fetch uri fetched w
  = match text_to_store uri fetched with
    | None => (set_promise uri (Settled (Resolved None)) w, [])
    | Some dat =>
        (set_promise uri
           (AwaitWriteData
              (fst (WriteData uri dat "input-file" [uri] None (the_store w))))
           {| the_store := snd (WriteData uri dat "input-file" [uri] None (the_store w));
              view := view w |},
         [CallWriteData uri])
    end.
Proof.
  unfold after_fetch, text_to_store.
  destruct (truthy fetched) eqn:Hf.
  - set (t := replace_this_folder _ _).
    destruct (truthy (Some t)) eqn:Ht; cbn [negb].
    + destruct t as [|a t]; [done|]. cbn [default].
      by destruct (WriteData _ _ _ _ _ _).
    + reflexivity.
  - rewrite Hf. reflexivity.
Qed.

(** The body that awaits [WriteData] is resumed. *)
Lemma advance_written uri io r w effects :
  cache (view w) !! uri = Some (AwaitWriteData r) ->
  advance uri io (w, effects)
  = (match r with
     | Ok h => set_promise uri (Settled (Resolved (Some h))) (push_uri uri w)
     | Throw e => set_promise uri (Settled (Rejected e)) w
     end, effects).
Proof.
  intros Hslot. unfold advance, resume. cbn [fst snd]. rewrite Hslot.
  destruct r; by rewrite app_nil_r.
Qed.

(** After [after_fetch], the read settles in at most one more step. *)
Lemma after_fetch_settles uri fetched w previous io :
  advance uri io
    (fst (after_fetch uri fetched w), previous ++ snd (after_fetch uri fetched w))
  = match text_to_store uri fetched with
    | None => (set_promise uri (Settled (Resolved None)) w, previous)
    | Some dat => (settled_write uri dat w, previous ++ [CallWriteData uri])
    end.
Proof.
  rewrite after_fetch_shape.
  destruct (text_to_store uri fetched) as [dat|]; cbn [fst snd].
  - unfold settled_write.
    destruct (WriteData uri dat "input-file" [uri] None (the_store w)) as [r s'].
    cbn [fst snd].
    rewrite (advance_written uri io r) by apply lookup_insert_eq.
    destruct r as [h|e]; unfold set_promise, push_uri; cbn;
      by rewrite insert_insert_eq.
  - rewrite app_nil_r.
    by rewrite (advance_settled uri io _ _ (Resolved None)) by apply lookup_insert_eq.
Qed.

Lemma settled_write_settled uri dat w :
  exists o, cache (view (settled_write uri dat w)) !! uri = Some (Settled o).
Proof.
  unfold settled_write.
  destruct (WriteData uri dat "input-file" [uri] None (the_store w)) as [[h|e] s'];
    eexists; apply lookup_insert_eq.
Qed.

Lemma settled_write_set_promise uri dat p w :
  settled_write uri dat (set_promise uri p w) = settled_write uri dat w.
Proof.
  unfold settled_write. cbn [the_store set_promise].
  destruct (WriteData uri dat "input-file" [uri] None (the_store w)) as [[h|e] s'];
    unfold set_promise, push_uri; cbn; by rewrite insert_insert_eq.
Qed.

(** The course of a read of a uri that is new to the view and not in the
    store: the calls it makes and the world it leaves. *)
Lemma Read_to_completion_miss uri file net w :
  cache (view w) !! uri = None ->
  store (the_store w) !! ResolveUri BaseUri uri = None ->
  Read_to_completion uri file net w
  = match text_to_store uri (fetched_data file net) with
    | None => (set_promise uri (Settled (Resolved None)) w, accessor_calls uri file)
    | Some dat =>
        (settled_write uri dat w, accessor_calls uri file ++ [CallWriteData uri])
    end.
Proof.
  intros Hslot Hmiss. unfold Read_to_completion.
  rewrite Read_then_probe_miss by done.
  set (w1 := set_promise uri AwaitReadFile w).
  assert (Hw1 : cache (view w1) !! uri = Some AwaitReadFile) by apply lookup_insert_eq.
  assert (Hnull : forall p, set_promise uri (Settled (Resolved None)) (set_promise uri p w)
                            = set_promise uri (Settled (Resolved None)) w).
  { intros p. unfold set_promise. cbn. by rewrite insert_insert_eq. }
  unfold fetched_data, accessor_calls. destruct file as [d|].
  - destruct (truthy d) eqn:Hd.
    + assert (Hstep : advance uri (Content d) (w1, [CallReadFile uri])
                      = (fst (after_fetch uri d w1),
                         [CallReadFile uri] ++ snd (after_fetch uri d w1))).
      { unfold advance, resume. cbn [fst snd]. rewrite Hw1, Hd.
        by destruct (after_fetch uri d w1). }
      rewrite Hstep, after_fetch_settles.
      destruct (text_to_store uri d) as [dat|].
      * destruct (settled_write_settled uri dat w1) as [o Ho].
        rewrite (advance_settled uri net _ _ o Ho).
        unfold w1. by rewrite settled_write_set_promise.
      * rewrite (advance_settled uri net _ _ (Resolved None))
          by apply lookup_insert_eq.
        unfold w1. by rewrite Hnull.
    + assert (Hstep : advance uri (Content d) (w1, [CallReadFile uri])
                      = (set_promise uri AwaitReadUri w,
                         [CallReadFile uri; CallReadUri uri])).
      { unfold advance, resume. cbn [fst snd]. rewrite Hw1, Hd.
        unfold w1, set_promise. cbn. by rewrite insert_insert_eq. }
      rewrite Hstep.
      set (w2 := set_promise uri AwaitReadUri w).
      assert (Hw2 : cache (view w2) !! uri = Some AwaitReadUri)
        by apply lookup_insert_eq.
      destruct net as [d'|].
      * assert (Hnet : advance uri (Content d') (w2, [CallReadFile uri; CallReadUri uri])
                       = (fst (after_fetch uri d' w2),
                          [CallReadFile uri; CallReadUri uri]
                            ++ snd (after_fetch uri d' w2))).
        { unfold advance, resume. cbn [fst snd]. rewrite Hw2.
          by destruct (after_fetch uri d' w2). }
        rewrite Hnet, after_fetch_settles.
        destruct (text_to_store uri d') as [dat|].
        -- unfold w2. by rewrite settled_write_set_promise.
        -- unfold w2. by rewrite Hnull.
      * assert (Hnet : advance uri Failed (w2, [CallReadFile uri; CallReadUri uri])
                       = (set_promise uri (Settled (Resolved None)) w,
                          [CallReadFile uri; CallReadUri uri])).
        { unfold advance, resume. cbn [fst snd]. rewrite Hw2.
          unfold w2. by rewrite Hnull. }
        rewrite Hnet.
        by rewrite (advance_settled uri Failed _ _ (Resolved None))
          by apply lookup_insert_eq.
  - assert (Hstep : advance uri Failed (w1, [CallReadFile uri])
                    = (set_promise uri (Settled (Resolved None)) w,
                       [CallReadFile uri])).
    { unfold advance, resume. cbn [fst snd]. rewrite Hw1.
      unfold w1. by rewrite Hnull. }
    rewrite Hstep.
    by rewrite !(advance_settled uri net _ _ (Resolved None))
      by apply lookup_insert_eq.
Qed.

End ReadCourse.

Section ReadCourseFacts.
Context `{UriLibrary}.

(** The course of a read of a uri that the store already holds. *)
Lemma Read_to_completion_hit uri file net w d :
  cache (view w) !! uri = None ->
  store (the_store w) !! ResolveUri BaseUri uri = Some d ->
  Read_to_completion uri file net w
  = (set_promise uri
       (Settled (Resolved (Some {| key := ResolveUri BaseUri uri; read := d |})))
       (push_uri uri w), []).
Proof.
  intros Hslot Hhit. unfold Read_to_completion.
  set (h := {| key := ResolveUri BaseUri uri; read := d |}).
  assert (Hfirst : advance uri file (ReadThrough_Read uri w, [])
                   = (set_promise uri (Settled (Resolved (Some h))) (push_uri uri w), [])).
  { unfold advance, ReadThrough_Read, resume, Read. rewrite Hslot, Hhit.
    cbn [fst snd view the_store set_promise cache]. rewrite lookup_insert_eq.
    unfold set_promise, push_uri. cbn. by rewrite insert_insert_eq. }
  rewrite Hfirst.
  by rewrite !(advance_settled uri _ _ _ (Resolved (Some h))) by apply lookup_insert_eq.
Qed.


End ReadCourseFacts.

(** X17. A read through the view of a uri that the store already holds
    resolves to the handle of the stored record without asking the
    accessor: no call of [fs.ReadFile], [ReadUri] or [WriteData] is made,
    whatever the accessor would deliver; the store stays as it is and the
    uri is enumerated. *)
Theorem read_through_store_hit `{UriLibrary} (uri : string) (file net : Fetched)
    (w : World) (d : loc) :
  cache (view w) !! uri = None ->
  store (the_store w) !! ResolveUri BaseUri uri = Some d ->
  let w' := fst (Read_to_completion uri file net w) in
  snd (Read_to_completion uri file net w) = []
  /\ outcome uri w' = Some (Resolved (Some {| key := ResolveUri BaseUri uri; read := d |}))
  /\ the_store w' = the_store w
  /\ Enum w' = Enum w ++ [uri].
Proof.
  intros Hslot Hhit w'. unfold w'.
  rewrite (Read_to_completion_hit uri file net w d) by done.
  cbn [fst snd]. split; [done|]. split; [|done].
  unfold outcome. cbn. by rewrite lookup_insert_eq.
Qed.

Lemma read_through_store_hit_witness :
  let s := @perform example_uris (op_WriteData "a" "foo" "text" ["x"] None)
             empty_DataStore in
  let w' := fst (@Read_to_completion example_uris "mem:///0?a" Failed Failed
                   (GetReadThroughScope s)) in
  outcome "mem:///0?a" w' = Some (Resolved (Some {| key := "mem:///0?a"; read := 0%nat |}))
  /\ Enum w' = ["mem:///0?a"].
Proof.
  intros s w'.
  destruct (@read_through_store_hit example_uris "mem:///0?a" Failed Failed
              (GetReadThroughScope s) 0%nat) as (_ & Hout & _ & Henum).
  - reflexivity.
  - reflexivity.
  - split; [exact Hout|exact Henum].
Defined.



(** X19. A read through the view settles, and it is rejected only by
    cancellation: for a uri that is new to the view, four resumptions at
    most settle the promise, whatever the accessor delivers; the promise is
    rejected only when cancellation has been requested, with the
    cancellation error and without a change to the keys and records of the
    store; and a handle it resolves to is the handle of a key of the
    store. *)
Theorem read_through_settles `{UriLibrary} (uri : string) (file net : Fetched)
    (w : World) :
  UriLaws BaseUri -> store_ok (the_store w) ->
  cache (view w) !! uri = None ->
  let w' := fst (Read_to_completion uri file net w) in
  exists o,
    outcome uri w' = Some o
    /\ (forall e, o = Rejected e ->
          e = OperationCanceledException
          /\ isCancellationRequested (the_store w) = true
          /\ store (the_store w') = store (the_store w)
          /\ objects (the_store w') = objects (the_store w))
    /\ (forall h, o = Resolved (Some h) ->
          store (the_store w') !! key h = Some (read h)).
Proof.
  intros Hlaws Hok Hslot w'. unfold w'.
  destruct (store (the_store w) !! ResolveUri BaseUri uri) as [d|] eqn:Hprobe.
  - rewrite (Read_to_completion_hit uri file net w d) by done. cbn [fst].
    eexists. split; [unfold outcome; cbn; by rewrite lookup_insert_eq|].
    split; [done|]. by intros h [= <-].
  - rewrite Read_to_completion_miss by done.
    destruct (text_to_store uri (fetched_data file net)) as [dat|]; cbn [fst].
    + unfold settled_write. rewrite WriteData_run by done.
      destruct (isCancellationRequested (the_store w)) eqn:Hc.
      * eexists. split; [unfold outcome; cbn; by rewrite lookup_insert_eq|].
        split; [|done]. by intros e [= <-].
      * eexists. split; [unfold outcome; cbn; by rewrite lookup_insert_eq|].
        split; [done|]. intros h [= <-]. cbn. apply lookup_insert_eq.
    + eexists. split; [unfold outcome; cbn; by rewrite lookup_insert_eq|].
      split; done.
Qed.

Lemma read_through_settles_witness :
  let uri := "file:///tmp/a/readme.md" in
  let w' := fst (@Read_to_completion example_uris uri (Content None)
                   (Content (Some "hello")) (GetReadThroughScope empty_DataStore)) in
  exists o, outcome uri w' = Some o
            /\ forall e, o <> Rejected e.
Proof.
  intros uri w'.
  destruct (@read_through_settles example_uris uri (Content None)
              (Content (Some "hello")) (GetReadThroughScope empty_DataStore))
    as (o & Hout & Hrej & _).
  - exact example_uris_laws.
  - exact store_ok_empty.
  - reflexivity.
  - exists o. split; [exact Hout|]. intros e He.
    by destruct (Hrej e He) as (_ & Hc & _).
Defined.




